(** * MediQuery UI: citation resolver and query submission flow

    A shallow embedding of [mediquery_ui/app/page.tsx]:

    - [formatAnswerWithCitations], the citation resolver, together with the
      part of the ECMAScript string library it calls
      ([String.prototype.replace] with a string pattern and a string
      replacement, hence [StringIndexOf] and [GetSubstitution]; template
      literals over a number and a string);
    - the component [MediQueryUI]: its four state variables, the handlers
      [askQuestion] and [handleKeyPress], the [disabled] attribute of the
      button and the conditional parts of the rendered page.

    Part I holds the definitions, Part II the lemmas and theorems. *)

From Stdlib Require Import String Ascii Decimal DecimalNat.
From Stdlib Require Import List NArith Arith Lia Bool.
Import ListNotations.

Set Warnings "-register-all".

(* ================================================================= *)
(** * Part I: definitions *)
(* ================================================================= *)

(** ** ECMAScript strings *)

Module JS.

(** A JavaScript string is a finite sequence of UTF-16 code units.  Code
    units are kept as numbers; nothing below does arithmetic on them, so
    the 16-bit bound is not needed. *)
Definition code_unit : Type := N.
Definition jsstring : Type := list code_unit.

(** String literals of the source, written as Rocq strings. *)
Definition str (s : string) : jsstring :=
  map N_of_ascii (list_ascii_of_string s).

Definition DOLLAR : code_unit := 36%N.     (* $ *)
Definition AMPERSAND : code_unit := 38%N.  (* & *)
Definition APOSTROPHE : code_unit := 39%N. (* ' *)
Definition LPAREN : code_unit := 40%N.     (* ( *)
Definition RPAREN : code_unit := 41%N.     (* ) *)
Definition LBRACKET : code_unit := 91%N.   (* [ *)
Definition RBRACKET : code_unit := 93%N.   (* ] *)
Definition BACKTICK : code_unit := 96%N.   (* ` *)

(** [Number::toString] on a non-negative integer below 10^21: the decimal
    digits, most significant first, without leading zeros. *)
Fixpoint digits (d : Decimal.uint) : jsstring :=
  match d with
  | Nil => []
  | D0 d => 48%N :: digits d
  | D1 d => 49%N :: digits d
  | D2 d => 50%N :: digits d
  | D3 d => 51%N :: digits d
  | D4 d => 52%N :: digits d
  | D5 d => 53%N :: digits d
  | D6 d => 54%N :: digits d
  | D7 d => 55%N :: digits d
  | D8 d => 56%N :: digits d
  | D9 d => 57%N :: digits d
  end.

Definition number_to_string (n : nat) : jsstring := digits (Nat.to_uint n).

(** [IsStringPrefix(p, s)]. *)
Fixpoint starts_with (p s : jsstring) : bool :=
  match p, s with
  | [], _ => true
  | _ :: _, [] => false
  | a :: p', b :: s' => N.eqb a b && starts_with p' s'
  end.

(** [StringIndexOf(s, p, 0)]: the least position at which [p] occurs in
    [s], or [None] (the specification's NOT-FOUND). *)
Fixpoint indexOf (p s : jsstring) : option nat :=
  if starts_with p s then Some 0
  else match s with
       | [] => None
       | _ :: s' => option_map S (indexOf p s')
       end.

(** [GetSubstitution(matched, str, position, captures, namedCaptures,
    replacementTemplate)] as [String.prototype.replace] calls it for a
    string pattern: [captures] is empty and [namedCaptures] is undefined.
    [before] is the part of [str] in front of the match and [after] the part
    behind it.  A dollar sign followed by a digit or by [<] therefore stands
    for itself, like any dollar sign that starts none of the four patterns. *)
Fixpoint get_substitution (matched before after template : jsstring) : jsstring :=
  match template with
  | [] => []
  | c :: rest =>
      if N.eqb c DOLLAR then
        match rest with
        | [] => [DOLLAR]
        | d :: rest' =>
            if N.eqb d DOLLAR then
              DOLLAR :: get_substitution matched before after rest'
            else if N.eqb d AMPERSAND then
              matched ++ get_substitution matched before after rest'
            else if N.eqb d BACKTICK then
              before ++ get_substitution matched before after rest'
            else if N.eqb d APOSTROPHE then
              after ++ get_substitution matched before after rest'
            else
              DOLLAR :: get_substitution matched before after rest
        end
      else c :: get_substitution matched before after rest
  end.

(** [s.replace(searchValue, replaceValue)] with two strings: only the first
    occurrence of [searchValue] is replaced, by the expansion of
    [replaceValue]. *)
Definition replace (s searchValue replaceValue : jsstring) : jsstring :=
  match indexOf searchValue s with
  | None => s
  | Some position =>
      let preceding := firstn position s in
      let following := skipn (position + length searchValue) s in
      preceding
        ++ get_substitution searchValue preceding following replaceValue
        ++ following
  end.

(** White space and line terminators, the code units [trim] strips. *)
Definition is_white_space (c : code_unit) : bool :=
  (N.leb 9 c && N.leb c 13)
  || N.eqb c 32 || N.eqb c 160 || N.eqb c 5760
  || (N.leb 8192 c && N.leb c 8202)
  || N.eqb c 8232 || N.eqb c 8233 || N.eqb c 8239 || N.eqb c 8287
  || N.eqb c 12288 || N.eqb c 65279.

Fixpoint trim_start (s : jsstring) : jsstring :=
  match s with
  | [] => []
  | c :: s' => if is_white_space c then trim_start s' else s
  end.

Definition trim (s : jsstring) : jsstring :=
  rev (trim_start (rev (trim_start s))).

(** [ToBoolean] of a string: only the empty string is falsy. *)
Definition truthy (s : jsstring) : bool :=
  match s with
  | [] => false
  | _ :: _ => true
  end.

Definition string_eqb (a b : jsstring) : bool :=
  if list_eq_dec N.eq_dec a b then true else false.

End JS.

Import JS.

(** ** The citation resolver *)

(** The pattern of the callback, [`[${index + 1}]`]. *)
Definition marker (index : nat) : jsstring :=
  [LBRACKET] ++ number_to_string (index + 1) ++ [RBRACKET].

(** The replacement of the callback, [`[[${index + 1}]](${citation})`]. *)
Definition link (index : nat) (citation : jsstring) : jsstring :=
  [LBRACKET; LBRACKET] ++ number_to_string (index + 1)
    ++ [RBRACKET; RBRACKET; LPAREN] ++ citation ++ [RPAREN].

(** [citations.forEach((citation, index) => ...)] from position [index] on;
    the accumulator is the variable [formattedAnswer] the callback assigns. *)
Fixpoint forEach_from (index : nat) (citations : list jsstring)
    (formattedAnswer : jsstring) : jsstring :=
  match citations with
  | [] => formattedAnswer
  | citation :: rest =>
      forEach_from (S index) rest
        (replace formattedAnswer (marker index) (link index citation))
  end.

Definition formatAnswerWithCitations (answer : jsstring)
    (citations : list jsstring) : jsstring :=
  forEach_from 0 citations answer.

(** *** Vocabulary of the specification *)

(** The marker text ["[k]"] and the link text ["[[k]](url)"] for a 1-based
    citation number [k]. *)
Definition bracket (k : nat) : jsstring :=
  [LBRACKET] ++ number_to_string k ++ [RBRACKET].

Definition linked (k : nat) (url : jsstring) : jsstring :=
  [LBRACKET; LBRACKET] ++ number_to_string k
    ++ [RBRACKET; RBRACKET; LPAREN] ++ url ++ [RPAREN].

(** [p] occurs in [s] as a substring. *)
Definition occurs (p s : jsstring) : Prop :=
  exists pre post, s = pre ++ p ++ post.

Definition occursb (p s : jsstring) : bool :=
  match indexOf p s with
  | Some _ => true
  | None => false
  end.

(** The number of positions of [s] at which [p] starts. *)
Fixpoint occurrences (p s : jsstring) : nat :=
  (if starts_with p s then 1 else 0)
  + match s with
    | [] => 0
    | _ :: s' => occurrences p s'
    end.

(** A replacement template holds a pattern when a dollar sign in it is
    followed by [$], [&], a backtick or an apostrophe. *)
Fixpoint has_pattern (template : jsstring) : bool :=
  match template with
  | [] => false
  | c :: rest =>
      (N.eqb c DOLLAR
       && match rest with
          | [] => false
          | d :: _ =>
              N.eqb d DOLLAR || N.eqb d AMPERSAND
              || N.eqb d BACKTICK || N.eqb d APOSTROPHE
          end)
      || has_pattern rest
  end.

(** Citations that are inserted as they are and bring no marker text of
    their own: no replacement pattern, and none of the markers
    ["[1]"] .. ["[n]"] as a substring. *)
Definition plain_citation (n : nat) (citation : jsstring) : bool :=
  negb (has_pattern citation)
  && forallb (fun k => negb (occursb (bracket k) citation)) (seq 1 n).

Definition plain_citations (citations : list jsstring) : bool :=
  forallb (plain_citation (length citations)) citations.

(** What the steps from [index] on make of the text [behind] a piece that
    they leave alone, when [front] is the text in front of it: a step works
    on [front] if its marker occurs there, and on [behind] otherwise. *)
Fixpoint forEach_behind (index : nat) (citations : list jsstring)
    (front behind : jsstring) : jsstring :=
  match citations with
  | [] => behind
  | citation :: rest =>
      forEach_behind (S index) rest
        (replace front (marker index) (link index citation))
        (if occursb (marker index) front then behind
         else replace behind (marker index) (link index citation))
  end.

(** The propositional reading of [plain_citation]. *)
Definition plain (n : nat) (citation : jsstring) : Prop :=
  has_pattern citation = false
  /\ forall k, 1 <= k <= n -> ~ occurs (bracket k) citation.

(** The code units of a decimal numeral. *)
Definition digit (c : code_unit) : Prop := (48 <= c <= 57)%N.

(** [M] is apart from the pattern [m] when every occurrence of [m] in a
    string around [M] lies in front of [M] or behind it. *)
Definition apart (m M : jsstring) : Prop :=
  forall a b x y,
    a ++ M ++ b = x ++ m ++ y ->
    (exists z, a = x ++ m ++ z /\ y = z ++ M ++ b)
    \/ (exists z, x = a ++ M ++ z /\ b = z ++ m ++ y).


(** ** Values at run time *)

(** The types of the source are erased at run time: what [res.json()]
    gives is any JSON value, and the state variable [result] holds it as it
    came.  A number is kept as the text [Number::toString] gives for it,
    with a flag for the numbers that [ToBoolean] takes for false; an object
    is kept as the list of its own properties, each key once. *)
Inductive Value : Type :=
  | VUndefined
  | VNull
  | VBool (b : bool)
  | VNumber (text : jsstring) (is_zero : bool)
  | VString (s : jsstring)
  | VArray (elements : list Value)
  | VObject (properties : list (jsstring * Value)).

Definition COMMA : code_unit := 44%N.

Fixpoint lookup (name : jsstring) (properties : list (jsstring * Value))
    : option Value :=
  match properties with
  | [] => None
  | (key, v) :: rest =>
      if string_eqb key name then Some v else lookup name rest
  end.

(** [ToString]; [None] stands for a thrown [TypeError].  An array is
    joined with commas, [null] and [undefined] elements giving the empty
    string; an object gives ["[object Object]"], unless an own property
    hides [Object.prototype.toString]: a JSON value is not callable, and the
    conversion throws. *)
Fixpoint to_string (v : Value) : option jsstring :=
  match v with
  | VUndefined => Some (str "undefined")
  | VNull => Some (str "null")
  | VBool true => Some (str "true")
  | VBool false => Some (str "false")
  | VNumber text _ => Some text
  | VString s => Some s
  | VArray elements =>
      (fix join (l : list Value) : option jsstring :=
         match l with
         | [] => Some []
         | x :: rest =>
             match
               match x with
               | VUndefined | VNull => Some []
               | _ => to_string x
               end,
               join rest
             with
             | Some a, Some b =>
                 Some (match rest with
                       | [] => a
                       | _ :: _ => a ++ COMMA :: b
                       end)
             | _, _ => None
             end
         end) elements
  | VObject properties =>
      match lookup (str "toString") properties with
      | Some _ => None
      | None => Some (str "[object Object]")
      end
  end.

(** [ToBoolean]. *)
Definition truthy_value (v : Value) : bool :=
  match v with
  | VUndefined | VNull => false
  | VBool b => b
  | VNumber _ is_zero => negb is_zero
  | VString s => truthy s
  | VArray _ | VObject _ => true
  end.

(** The property accesses of the source, [v.answer] and [v.citations]:
    [None] stands for the [TypeError] on [null] and [undefined].  No
    prototype has a property of these names, so a value other than an
    object gives [undefined]. *)
Definition get (name : jsstring) (v : Value) : option Value :=
  match v with
  | VUndefined | VNull => None
  | VObject properties =>
      match lookup name properties with
      | Some x => Some x
      | None => Some VUndefined
      end
  | _ => Some VUndefined
  end.

(** [formatAnswerWithCitations] on whatever values it is called with;
    [None] stands for a thrown [TypeError]: [citations.forEach] on a value
    that is no array, [formattedAnswer.replace] on a value that is no
    string, or a citation that cannot be converted to a string. *)
Fixpoint forEach_any (index : nat) (citations : list Value)
    (formattedAnswer : Value) : option Value :=
  match citations with
  | [] => Some formattedAnswer
  | citation :: rest =>
      match formattedAnswer, to_string citation with
      | VString s, Some c =>
          forEach_any (S index) rest
            (VString (replace s (marker index) (link index c)))
      | _, _ => None
      end
  end.

Definition formatAnswerWithCitations_any (answer citations : Value)
    : option Value :=
  match citations with
  | VArray elements => forEach_any 0 elements answer
  | _ => None
  end.

(** ** The component [MediQueryUI] *)

(** The interface [QueryResult], and the object that has its four
    properties. *)
Record QueryResult : Type := {
  topic : jsstring;
  domain_filter : list jsstring;
  answer : jsstring;
  citations : list jsstring
}.

Definition query_result (r : QueryResult) : Value :=
  VObject
    [(str "topic", VString (topic r));
     (str "domain_filter", VArray (map VString (domain_filter r)));
     (str "answer", VString (answer r));
     (str "citations", VArray (map VString (citations r)))].

(** The four [useState] variables; [result] starts as [null]. *)
Record State : Type := {
  question : jsstring;
  loading : bool;
  result : Value;
  error : option jsstring
}.

Definition initial_state : State :=
  {| question := []; loading := false; result := VNull; error := None |}.

Definition setQuestion (v : jsstring) (s : State) : State :=
  {| question := v; loading := loading s; result := result s; error := error s |}.

Definition setLoading (v : bool) (s : State) : State :=
  {| question := question s; loading := v; result := result s; error := error s |}.

Definition setResult (v : Value) (s : State) : State :=
  {| question := question s; loading := loading s; result := v; error := error s |}.

Definition setError (v : option jsstring) (s : State) : State :=
  {| question := question s; loading := loading s; result := result s; error := v |}.

(** The one request the page sends:
    [fetch('http://127.0.0.1:8000/ask', { method: 'POST', ...,
    body: JSON.stringify({ question }) })]. *)
Inductive Request : Type :=
  | POST_ask (question : jsstring).

(** How a [fetch] ends: the promise rejects (network failure), or a
    response arrives with a status and a body that [res.json()] parses,
    to whatever JSON value it holds, or rejects. *)
Inductive Body : Type :=
  | Json (data : Value)
  | NotJson (message : jsstring).

Inductive Outcome : Type :=
  | Rejected (message : jsstring)
  | Response (status : nat) (body : Body).

(** [res.ok]: the status is in the range 200-299. *)
Definition ok (status : nat) : bool :=
  (200 <=? status) && (status <=? 299).

(** [`HTTP error! Status: ${res.status}`]. *)
Definition http_error (status : nat) : jsstring :=
  str "HTTP error! Status: " ++ number_to_string status.

(** [askQuestion] up to its [await]: the guard, the three state updates
    and the call of [fetch]. *)
Definition askQuestion (s : State) : State * list Request :=
  if negb (truthy (trim (question s))) then (s, [])
  else (setError None (setResult VNull (setLoading true s)),
        [POST_ask (question s)]).

(** [askQuestion] from the [await] on, once the request has ended: the
    rest of the [try] block, [catch] and [finally].  The parsed body is
    stored as it is. *)
Definition askQuestion_settled (o : Outcome) (s : State) : State :=
  setLoading false
    match o with
    | Rejected message => setError (Some message) s
    | Response status body =>
        if negb (ok status) then setError (Some (http_error status)) s
        else match body with
             | Json data => setResult data s
             | NotJson message => setError (Some message) s
             end
    end.

Definition handleKeyPress (key : jsstring) (shiftKey : bool) (s : State)
    : State * list Request :=
  if string_eqb key (str "Enter") && negb shiftKey then askQuestion s
  else (s, []).

(** [disabled={loading || !question.trim()}]. *)
Definition button_disabled (s : State) : bool :=
  loading s || negb (truthy (trim (question s))).

(** A disabled button dispatches no click. *)
Definition onClick (s : State) : State * list Request :=
  if button_disabled s then (s, []) else askQuestion s.

(** The result card: the value handed to [ReactMarkdown] as its children
    and the values listed as sources, one item each; or the failure of the
    render, when an expression of the card throws. *)
Inductive Card : Type :=
  | Shown (children : Value) (sources : list Value)
  | RenderError.

(** [formatAnswerWithCitations(result.answer, result.citations)], then
    [result.citations.map(...)]. *)
Definition card (r : Value) : Card :=
  match get (str "answer") r, get (str "citations") r with
  | Some a, Some c =>
      match formatAnswerWithCitations_any a c, c with
      | Some children, VArray cites => Shown children cites
      | _, _ => RenderError
      end
  | _, _ => RenderError
  end.

(** The parts of the rendered page that depend on the state.  The card
    stands under [!loading && result && (...)]: a falsy [result] is itself
    the value of that expression, and React prints it when it is a number,
    the digit of a zero. *)
Record Page : Type := {
  input_value : jsstring;
  disabled : bool;
  error_box : option jsstring;
  skeleton : bool;
  result_card : option Card;
  result_text : option jsstring
}.

Definition render (s : State) : Page :=
  {| input_value := question s;
     disabled := button_disabled s;
     error_box :=
       match error s with
       | Some message => if truthy message then Some message else None
       | None => None
       end;
     skeleton := loading s;
     result_card :=
       if negb (loading s) && truthy_value (result s)
       then Some (card (result s))
       else None;
     result_text :=
       if negb (loading s) then
         match result s with
         | VNumber text true => Some text
         | _ => None
         end
       else None |}.

(** *** The page in its environment *)

(** What the user and the network can do to the page. [Settle n o] ends
    the [n]-th outstanding request with outcome [o]. *)
Inductive Event : Type :=
  | Change (value : jsstring)
  | Click
  | KeyDown (key : jsstring) (shiftKey : bool)
  | Settle (n : nat) (o : Outcome).

Record Session : Type := {
  view : State;
  outstanding : list Request;
  sent : list Request
}.

Definition start : Session :=
  {| view := initial_state; outstanding := []; sent := [] |}.

(** The requests a user event starts in state [s], and the state after it. *)
Definition handle (e : Event) (s : State) : State * list Request :=
  match e with
  | Change value => (setQuestion value s, [])
  | Click => onClick s
  | KeyDown key shiftKey => handleKeyPress key shiftKey s
  | Settle _ o => (askQuestion_settled o s, [])
  end.

Fixpoint remove_nth {A : Type} (n : nat) (l : list A) : list A :=
  match l, n with
  | [], _ => []
  | _ :: l', 0 => l'
  | x :: l', S n' => x :: remove_nth n' l'
  end.

(** One event; [None] when the event cannot happen (a request that is not
    outstanding cannot end). *)
Definition step (w : Session) (e : Event) : option Session :=
  let enabled :=
    match e with
    | Settle n _ => n <? length (outstanding w)
    | _ => true
    end in
  if enabled then
    let (s', requests) := handle e (view w) in
    Some {| view := s';
            outstanding :=
              match e with
              | Settle n _ => remove_nth n (outstanding w)
              | _ => outstanding w ++ requests
              end;
            sent := sent w ++ requests |}
  else None.

Fixpoint run (w : Session) (events : list Event) : option Session :=
  match events with
  | [] => Some w
  | e :: rest =>
      match step w e with
      | Some w' => run w' rest
      | None => None
      end
  end.

Definition reachable (w : Session) : Prop :=
  exists events, run start events = Some w.

(** A submit action: a click on the button or the Enter key. *)
Definition submit_action (e : Event) : Prop :=
  e = Click \/ e = KeyDown (str "Enter") false.

(** The user types: each value replaces the question, nothing else
    changes. *)
Definition type_all (values : list jsstring) (s : State) : State :=
  fold_left (fun st v => setQuestion v st) values s.

(** A failed request: a network failure or a response outside 200-299. *)
Definition failure (o : Outcome) : bool :=
  match o with
  | Rejected _ => true
  | Response status _ => negb (ok status)
  end.

(** The error description the code attaches to a failed request. *)
Definition failure_message (o : Outcome) : jsstring :=
  match o with
  | Rejected message => message
  | Response status _ => http_error status
  end.

(** *** Further vocabulary *)

(** No citation of the list holds a replacement pattern. *)
Definition pattern_free (citations : list jsstring) : bool :=
  forallb (fun citation => negb (has_pattern citation)) citations.

(** A question made of white space only (the empty one included). *)
Definition blank (q : jsstring) : bool := forallb is_white_space q.

Definition request_question (r : Request) : jsstring :=
  match r with
  | POST_ask q => q
  end.

(** The key events on which [handleKeyPress] calls [askQuestion]. *)
Definition plain_enter (e : Event) : bool :=
  match e with
  | KeyDown key shiftKey => string_eqb key (str "Enter") && negb shiftKey
  | _ => false
  end.

(** Invariants of the sessions: what holds while the page is loading,
    what has been sent, and the shape of a session driven by the button. *)
Definition loading_clean (w : Session) : Prop :=
  loading (view w) = true ->
  result (view w) = VNull /\ error (view w) = None /\ outstanding w <> [].

Definition no_blank_sent (w : Session) : Prop :=
  Forall (fun r => blank (request_question r) = false) (sent w).

(** With the button alone: one request loading and nothing shown, or no
    request and not both an error and a result. *)
Definition one_at_a_time (w : Session) : Prop :=
  (loading (view w) = true /\ length (outstanding w) = 1
   /\ result (view w) = VNull /\ error (view w) = None)
  \/ (loading (view w) = false /\ outstanding w = []
      /\ (result (view w) = VNull \/ error (view w) = None)).

(** *** Steps around a piece of the text *)

(** [replace] on the part [s] of a text [left ++ s ++ right] whose first
    occurrence of the pattern lies in [s]: the occurrence in [s] is
    replaced, and the expansion of the replacement sees the whole text. *)
Definition replace_within (left right s searchValue replaceValue : jsstring)
    : jsstring :=
  match indexOf searchValue s with
  | None => s
  | Some position =>
      let preceding := firstn position s in
      let following := skipn (position + length searchValue) s in
      preceding
        ++ get_substitution searchValue (left ++ preceding)
             (following ++ right) replaceValue
        ++ following
  end.

(** The steps from [index] on, on a text [front ++ piece ++ behind] in
    which no step touches [piece]: a step rewrites the first occurrence of
    its marker in [front], or else in [behind]; [piece] is passed on as it
    is.  The result is the pair of the two rewritten parts. *)
Fixpoint forEach_around (index : nat) (citations : list jsstring)
    (front piece behind : jsstring) : jsstring * jsstring :=
  match citations with
  | [] => (front, behind)
  | citation :: rest =>
      if occursb (marker index) front then
        forEach_around (S index) rest
          (replace_within [] (piece ++ behind) front
             (marker index) (link index citation))
          piece behind
      else
        forEach_around (S index) rest front piece
          (replace_within (front ++ piece) [] behind
             (marker index) (link index citation))
  end.

(** What the steps from [index] on make of the text [behind] the first
    marker of citation [skip + 1], when [front] is the text in front of
    it: step [skip] has rewritten that first marker and leaves [behind] as
    it is; every other step works on [front] if its marker occurs there,
    and on [behind] otherwise. *)
Fixpoint forEach_rest (skip index : nat) (citations : list jsstring)
    (front behind : jsstring) : jsstring :=
  match citations with
  | [] => behind
  | citation :: rest =>
      forEach_rest skip (S index) rest
        (replace front (marker index) (link index citation))
        (if Nat.eqb index skip || occursb (marker index) front then behind
         else replace behind (marker index) (link index citation))
  end.

(** *** The resolver with its variable and its array *)

(** What a call of the function can reach: the array objects of the heap,
    by address, and the requests sent with the global [fetch]. *)
Record World : Type := {
  arrays : list (list jsstring);
  requests : list Request
}.

(** The variable of the function body, [let formattedAnswer]. *)
Record Frame : Type := {
  formattedAnswer : jsstring
}.

(** The callback: one assignment to [formattedAnswer]. *)
Definition callback (citation : jsstring) (index : nat)
    (env : Frame * World) : Frame * World :=
  ({| formattedAnswer :=
        replace (formattedAnswer (fst env)) (marker index)
          (link index citation) |},
   snd env).

(** [Array.prototype.forEach]: the length is read once, before the loop;
    element [k] is read from the array object when its turn comes, and an
    index the array no longer has is skipped. *)
Fixpoint forEach_loop (len k : nat) (O : nat) (env : Frame * World)
    : Frame * World :=
  match len with
  | 0 => env
  | S len' =>
      match nth_error (arrays (snd env)) O with
      | Some elements =>
          match nth_error elements k with
          | Some kValue => forEach_loop len' (S k) O (callback kValue k env)
          | None => forEach_loop len' (S k) O env
          end
      | None => env
      end
  end.

(** A call [formatAnswerWithCitations(answer, citations)] in the world [w],
    [citations] the address of an array: the value returned and the world
    after the call; [None] when there is no array at the address. *)
Definition formatAnswerWithCitations_call (answer : jsstring)
    (citations : nat) (w : World) : option (jsstring * World) :=
  match nth_error (arrays w) citations with
  | None => None
  | Some elements =>
      let env :=
        forEach_loop (length elements) 0 citations
          ({| formattedAnswer := answer |}, w) in
      Some (formattedAnswer (fst env), snd env)
  end.

(* ================================================================= *)
(** * Part II: lemmas and theorems *)
(* ================================================================= *)

(** ** Searching and replacing *)

Module StringFacts.

Lemma app_same_length (a b x y : jsstring) :
  length a = length b -> a ++ x = b ++ y -> a = b /\ x = y.
Proof.
  revert b; induction a as [|c a IH]; intros [|d b] Hl H;
    try discriminate; simpl in *.
  - now split.
  - injection H as -> H. injection Hl as Hl.
    destruct (IH b Hl H) as [-> ->]. now split.
Qed.

Lemma starts_with_app (p t : jsstring) : starts_with p (p ++ t) = true.
Proof.
  induction p as [|a p IH]; simpl; [reflexivity|].
  now rewrite N.eqb_refl.
Qed.

Lemma starts_with_inv (p s : jsstring) :
  starts_with p s = true -> exists t, s = p ++ t.
Proof.
  revert s; induction p as [|a p IH]; intros s H.
  - now exists s.
  - destruct s as [|b s]; simpl in H; [discriminate|].
    apply andb_true_iff in H as [Hab Hps].
    apply N.eqb_eq in Hab; subst b.
    destruct (IH s Hps) as [t ->].
    now exists t.
Qed.

Lemma indexOf_unfold (p s : jsstring) :
  indexOf p s =
  if starts_with p s then Some 0
  else match s with
       | [] => None
       | _ :: s' => option_map S (indexOf p s')
       end.
Proof. destruct s; reflexivity. Qed.

(** [indexOf] returns the position of an occurrence, and the least one. *)
Lemma indexOf_Some (p s : jsstring) (n : nat) :
  indexOf p s = Some n ->
  exists pre post,
    s = pre ++ p ++ post /\ length pre = n
    /\ forall x y, s = x ++ p ++ y -> n <= length x.
Proof.
  revert n; induction s as [|c s IH]; intros n H; rewrite indexOf_unfold in H.
  - destruct (starts_with p []) eqn:E; [|discriminate].
    injection H as <-.
    destruct (starts_with_inv _ _ E) as [t Ht].
    exists [], t; repeat split; auto. intros; lia.
  - destruct (starts_with p (c :: s)) eqn:E.
    + injection H as <-.
      destruct (starts_with_inv _ _ E) as [t Ht].
      exists [], t; repeat split; auto. intros; lia.
    + destruct (indexOf p s) as [m|] eqn:Em; [|discriminate].
      injection H as <-.
      destruct (IH m eq_refl) as (pre & post & Hs & Hlen & Hmin).
      exists (c :: pre), post; repeat split.
      * simpl; now rewrite <- Hs.
      * simpl; now rewrite Hlen.
      * intros [|c' x] y Hxy.
        -- simpl in Hxy. rewrite Hxy, starts_with_app in E. discriminate.
        -- simpl in Hxy. injection Hxy as _ Hxy.
           apply Hmin in Hxy. simpl; lia.
Qed.

Lemma indexOf_None (p s : jsstring) : indexOf p s = None -> ~ occurs p s.
Proof.
  induction s as [|c s IH]; intros H (pre & post & Hs); rewrite indexOf_unfold in H.
  - destruct pre; simpl in Hs; [|discriminate].
    rewrite Hs, starts_with_app in H. discriminate.
  - destruct (starts_with p (c :: s)) eqn:E; [discriminate|].
    destruct pre as [|c' pre]; simpl in Hs.
    + rewrite Hs, starts_with_app in E. discriminate.
    + injection Hs as _ Hs.
      destruct (indexOf p s); [discriminate|].
      apply IH; [reflexivity|]. now exists pre, post.
Qed.

Lemma occursb_true (p s : jsstring) : occursb p s = true <-> occurs p s.
Proof.
  unfold occursb; split.
  - destruct (indexOf p s) as [n|] eqn:E; [intros _|discriminate].
    destruct (indexOf_Some _ _ _ E) as (pre & post & Hs & _).
    now exists pre, post.
  - intros H. destruct (indexOf p s) eqn:E; [reflexivity|].
    now apply indexOf_None in E.
Qed.

Lemma occursb_false (p s : jsstring) : occursb p s = false <-> ~ occurs p s.
Proof.
  rewrite <- occursb_true. destruct (occursb p s); split; congruence.
Qed.

Lemma occurs_dec (p s : jsstring) : {occurs p s} + {~ occurs p s}.
Proof.
  destruct (occursb p s) eqn:E.
  - left; now apply occursb_true.
  - right; now apply occursb_false.
Qed.

(** What [replace] returns when the pattern is found: the text around the
    first occurrence, with the expansion of the replacement in between. *)
Lemma replace_found (s p r : jsstring) (n : nat) :
  indexOf p s = Some n ->
  exists pre post,
    s = pre ++ p ++ post /\ length pre = n
    /\ (forall x y, s = x ++ p ++ y -> length pre <= length x)
    /\ replace s p r = pre ++ get_substitution p pre post r ++ post.
Proof.
  intros H. unfold replace; rewrite H.
  destruct (indexOf_Some _ _ _ H) as (pre & post & Hs & Hlen & Hmin).
  exists pre, post; repeat split; auto.
  - intros x y Hxy. rewrite Hlen. eauto.
  - assert (Hf : firstn n s = pre).
    { rewrite Hs, <- Hlen. now rewrite firstn_app, Nat.sub_diag, firstn_all, firstn_O, app_nil_r. }
    assert (Hk : skipn (n + length p) s = post).
    { rewrite Hs, app_assoc, <- Hlen, <- length_app.
      now rewrite skipn_app, Nat.sub_diag, skipn_all, skipn_O. }
    now rewrite Hf, Hk.
Qed.

Lemma replace_absent (s p r : jsstring) : ~ occurs p s -> replace s p r = s.
Proof.
  intros H. unfold replace.
  destruct (indexOf p s) as [n|] eqn:E; [|reflexivity].
  exfalso; apply H, occursb_true. unfold occursb; now rewrite E.
Qed.

(** [replace] at a first occurrence given by its surroundings. *)
Lemma replace_first (pre post p r : jsstring) :
  (forall x y, pre ++ p ++ post = x ++ p ++ y -> length pre <= length x) ->
  replace (pre ++ p ++ post) p r
  = pre ++ get_substitution p pre post r ++ post.
Proof.
  intros Hmin.
  destruct (indexOf p (pre ++ p ++ post)) as [n|] eqn:E.
  - destruct (replace_found _ _ r _ E) as (pre' & post' & Hs & Hlen & Hmin' & Hr).
    assert (Hl : length pre' = length pre).
    { apply Nat.le_antisymm; [now apply (Hmin' pre post)| now apply (Hmin pre' post')]. }
    assert (pre' = pre /\ post' = post) as [-> ->].
    { symmetry in Hs. destruct (app_same_length _ _ _ _ Hl Hs) as [-> Hp].
      apply app_inv_head in Hp. now split. }
    exact Hr.
  - apply indexOf_None in E. exfalso; apply E. now exists pre, post.
Qed.

End StringFacts.

Import StringFacts.

(** ** Replacement templates *)

Module TemplateFacts.

(** A template without pattern expands to itself, whatever was matched and
    wherever. *)
Lemma get_substitution_plain (matched before after template : jsstring) :
  has_pattern template = false ->
  get_substitution matched before after template = template.
Proof.
  induction template as [|c rest IH]; [reflexivity|].
  intros H. simpl in H. apply orb_false_iff in H as [Hc Hrest].
  specialize (IH Hrest).
  simpl. destruct (N.eqb c DOLLAR) eqn:Ec.
  - apply N.eqb_eq in Ec; subst c.
    destruct rest as [|d rest']; [reflexivity|].
    simpl in Hc.
    repeat (apply orb_false_iff in Hc as [Hc ?]).
    rewrite Hc. 
    replace (N.eqb d AMPERSAND) with false by auto.
    replace (N.eqb d BACKTICK) with false by auto.
    replace (N.eqb d APOSTROPHE) with false by auto.
    now rewrite IH.
  - now rewrite IH.
Qed.

Lemma has_pattern_cons (c : code_unit) (t : jsstring) :
  c <> DOLLAR -> has_pattern (c :: t) = has_pattern t.
Proof.
  intros H. simpl. apply N.eqb_neq in H. now rewrite H.
Qed.

(** Closing a template with a parenthesis adds no pattern. *)
Lemma has_pattern_close (t : jsstring) :
  has_pattern t = false -> has_pattern (t ++ [RPAREN]) = false.
Proof.
  induction t as [|c rest IH]; [reflexivity|].
  intros H. simpl in H. apply orb_false_iff in H as [Hc Hrest].
  simpl. rewrite (IH Hrest), orb_false_r.
  destruct (N.eqb c DOLLAR); [|reflexivity].
  destruct rest as [|d rest']; [reflexivity|exact Hc].
Qed.


Lemma get_substitution_no_dollar (matched before after x t : jsstring) :
  ~ In DOLLAR x ->
  get_substitution matched before after (x ++ t)
  = x ++ get_substitution matched before after t.
Proof.
  induction x as [|c x IH]; intros H; [reflexivity|].
  cbn [app get_substitution].
  destruct (N.eqb c DOLLAR) eqn:Ec.
  - apply N.eqb_eq in Ec. exfalso. apply H. now left.
  - rewrite IH; [reflexivity|]. intros Hin. apply H. now right.
Qed.

Lemma get_substitution_cons (matched before after : jsstring)
    (c : code_unit) (rest : jsstring) :
  get_substitution matched before after (c :: rest)
  = if N.eqb c DOLLAR then
      match rest with
      | [] => [DOLLAR]
      | d :: rest' =>
          if N.eqb d DOLLAR then
            DOLLAR :: get_substitution matched before after rest'
          else if N.eqb d AMPERSAND then
            matched ++ get_substitution matched before after rest'
          else if N.eqb d BACKTICK then
            before ++ get_substitution matched before after rest'
          else if N.eqb d APOSTROPHE then
            after ++ get_substitution matched before after rest'
          else
            DOLLAR :: get_substitution matched before after rest
      end
    else c :: get_substitution matched before after rest.
Proof. reflexivity. Qed.

(** The closing parenthesis behind a template is copied. *)
Lemma get_substitution_close (matched before after t : jsstring) :
  get_substitution matched before after (t ++ [RPAREN])
  = get_substitution matched before after t ++ [RPAREN].
Proof.
  remember (length t) as n eqn:Hn.
  revert t Hn; induction n as [n IH] using lt_wf_ind; intros t Hn.
  destruct t as [|c [|d t]]; [reflexivity| |].
  - cbn. destruct (N.eqb c DOLLAR); reflexivity.
  - cbn [length] in Hn.
    pose proof (IH (length t) ltac:(lia) t eq_refl) as IH2.
    pose proof (IH (length (d :: t)) ltac:(cbn [length]; lia) (d :: t) eq_refl)
      as IH1.
    cbn [app] in *.
    rewrite (get_substitution_cons _ _ _ c (d :: t ++ [RPAREN])).
    rewrite (get_substitution_cons _ _ _ c (d :: t)).
    destruct (N.eqb c DOLLAR).
    + destruct (N.eqb d DOLLAR); [now rewrite IH2|].
      destruct (N.eqb d AMPERSAND); [now rewrite IH2, app_assoc|].
      destruct (N.eqb d BACKTICK); [now rewrite IH2, app_assoc|].
      destruct (N.eqb d APOSTROPHE); [now rewrite IH2, app_assoc|].
      now rewrite IH1.
    + now rewrite IH1.
Qed.

End TemplateFacts.

Import TemplateFacts.

(** ** Decimal numerals and markers *)

Module MarkerFacts.

Lemma digits_digit (d : Decimal.uint) : Forall digit (digits d).
Proof.
  induction d; simpl; constructor; auto; unfold digit; lia.
Qed.

Lemma number_to_string_digit (n : nat) : Forall digit (number_to_string n).
Proof. apply digits_digit. Qed.

Lemma digits_inj (d d' : Decimal.uint) : digits d = digits d' -> d = d'.
Proof.
  revert d'; induction d; intros [] H; simpl in H;
    try discriminate; try reflexivity;
    injection H as H; f_equal; now apply IHd.
Qed.

Lemma number_to_string_inj (j k : nat) :
  number_to_string j = number_to_string k -> j = k.
Proof.
  intros H. apply digits_inj in H.
  rewrite <- (DecimalNat.Unsigned.of_to j), <- (DecimalNat.Unsigned.of_to k).
  now rewrite H.
Qed.

Lemma marker_bracket (index : nat) : marker index = bracket (index + 1).
Proof. reflexivity. Qed.

Lemma link_linked (index : nat) (citation : jsstring) :
  link index citation = linked (index + 1) citation.
Proof. reflexivity. Qed.

Lemma bracket_app (k : nat) (y : jsstring) :
  bracket k ++ y = LBRACKET :: number_to_string k ++ RBRACKET :: y.
Proof. unfold bracket. simpl. now rewrite <- app_assoc. Qed.

Lemma bracket_inj (j k : nat) : bracket j = bracket k -> j = k.
Proof.
  unfold bracket; simpl. intros H. injection H as H.
  apply app_inj_tail in H as [H _]. now apply number_to_string_inj.
Qed.

Lemma digit_not_bracket (c : code_unit) :
  digit c -> c <> LBRACKET /\ c <> RBRACKET /\ c <> RPAREN /\ c <> DOLLAR.
Proof.
  unfold digit, LBRACKET, RBRACKET, RPAREN, DOLLAR. lia.
Qed.

(** *** Two bracketed numerals never overlap *)

(** Digits followed by a closing bracket: where the bracket is, is
    determined. *)
Lemma close_unique (b b' y y' : jsstring) :
  Forall digit b -> Forall digit b' ->
  b ++ RBRACKET :: y = b' ++ RBRACKET :: y' -> b = b' /\ y = y'.
Proof.
  intros Hb; revert b'; induction Hb as [|c b Hc Hb IH]; intros b' Hb' H.
  - destruct Hb' as [|c' b' Hc' Hb']; simpl in H.
    + injection H as H. now split.
    + injection H as H _. subst c'. destruct (digit_not_bracket _ Hc'); tauto.
  - destruct Hb' as [|c' b' Hc' Hb']; simpl in H.
    + injection H as H _. subst c. destruct (digit_not_bracket _ Hc); tauto.
    + injection H as -> H. destruct (IH _ Hb' H) as [-> ->]. now split.
Qed.

(** An opening bracket behind digits and a closing bracket lies behind
    that closing bracket. *)
Lemma open_after_close (b y x w : jsstring) :
  Forall digit b ->
  b ++ RBRACKET :: y = x ++ LBRACKET :: w ->
  exists z, x = b ++ RBRACKET :: z /\ y = z ++ LBRACKET :: w.
Proof.
  intros Hb; revert x; induction Hb as [|c b Hc Hb IH]; intros x H.
  - destruct x as [|c' x]; simpl in H.
    + discriminate.
    + injection H as <- H. now exists x.
  - destruct x as [|c' x]; simpl in H.
    + injection H as H _. subst c. destruct (digit_not_bracket _ Hc); tauto.
    + injection H as <- H. destruct (IH _ H) as (z & -> & ->). now exists z.
Qed.

(** Two occurrences of bracketed numerals in one string coincide or are
    disjoint. *)
Lemma bracketed_overlap (b1 b2 x y x' y' : jsstring) :
  Forall digit b1 -> Forall digit b2 ->
  x ++ LBRACKET :: b1 ++ RBRACKET :: y = x' ++ LBRACKET :: b2 ++ RBRACKET :: y' ->
  (x = x' /\ b1 = b2 /\ y = y')
  \/ (exists z, x' = x ++ LBRACKET :: b1 ++ RBRACKET :: z
                /\ y = z ++ LBRACKET :: b2 ++ RBRACKET :: y')
  \/ (exists z, x = x' ++ LBRACKET :: b2 ++ RBRACKET :: z
                /\ y' = z ++ LBRACKET :: b1 ++ RBRACKET :: y).
Proof.
  intros H1 H2; revert x'; induction x as [|c x IH]; intros [|c' x'] H; simpl in H.
  - injection H as H. destruct (close_unique _ _ _ _ H1 H2 H) as [-> ->]. now left.
  - injection H as <- H. right; left.
    destruct (open_after_close _ _ _ _ H1 H) as (z & -> & ->). now exists z.
  - injection H as -> H. right; right. symmetry in H.
    destruct (open_after_close _ _ _ _ H2 H) as (z & -> & ->). now exists z.
  - injection H as <- H. destruct (IH _ H) as [(-> & -> & ->)|[(z & -> & ->)|(z & -> & ->)]].
    + now left.
    + right; left. now exists z.
    + right; right. now exists z.
Qed.

(** Every occurrence of ["[k]"] in a string around ["[j]"], [j <> k], lies
    in front of that ["[j]"] or behind it. *)
Lemma bracket_apart (j k : nat) (x y x' y' : jsstring) :
  j <> k ->
  x ++ bracket j ++ y = x' ++ bracket k ++ y' ->
  (exists z, x' = x ++ bracket j ++ z /\ y = z ++ bracket k ++ y')
  \/ (exists z, x = x' ++ bracket k ++ z /\ y' = z ++ bracket j ++ y).
Proof.
  intros Hjk H. rewrite !bracket_app in H.
  destruct (bracketed_overlap _ _ _ _ _ _
              (number_to_string_digit j) (number_to_string_digit k) H)
    as [(_ & Hb & _)|[(z & -> & ->)|(z & -> & ->)]].
  - apply number_to_string_inj in Hb. contradiction.
  - left. exists z. now rewrite !bracket_app.
  - right. exists z. now rewrite !bracket_app.
Qed.

(** An occurrence of ["[k]"] in a string around ["[k]"] is that one, or
    lies in front of it or behind it. *)
Lemma bracket_same (k : nat) (x y x' y' : jsstring) :
  x ++ bracket k ++ y = x' ++ bracket k ++ y' ->
  x = x'
  \/ (exists z, x' = x ++ bracket k ++ z)
  \/ (exists z, x = x' ++ bracket k ++ z).
Proof.
  intros H. rewrite !bracket_app in H.
  destruct (bracketed_overlap _ _ _ _ _ _
              (number_to_string_digit k) (number_to_string_digit k) H)
    as [(-> & _ & _)|[(z & -> & ->)|(z & -> & ->)]].
  - now left.
  - right; left. exists z. now rewrite !bracket_app.
  - right; right. exists z. now rewrite !bracket_app.
Qed.

End MarkerFacts.

Import MarkerFacts.

(** ** The resolver, step by step *)

Module ResolverFacts.

Lemma bracket_apart_bracket (j k : nat) :
  j <> k -> apart (bracket j) (bracket k).
Proof.
  intros Hjk a b x y H.
  destruct (bracket_apart k j a b x y (not_eq_sym Hjk) H)
    as [(z & -> & ->)|(z & -> & ->)].
  - right. now exists z.
  - left. now exists z.
Qed.

(** A marker that starts inside a citation and its closing parenthesis
    lies inside the citation. *)
Lemma numeral_in_citation (n c b y : jsstring) :
  Forall digit n ->
  c ++ RPAREN :: b = n ++ RBRACKET :: y ->
  exists t, c = n ++ RBRACKET :: t.
Proof.
  intros Hn; revert c; induction Hn as [|e n He Hn IH]; intros c H.
  - destruct c as [|d c]; simpl in H.
    + discriminate.
    + injection H as -> _. now exists c.
  - destruct c as [|d c]; simpl in H.
    + injection H as H _. subst e. destruct (digit_not_bracket _ He); tauto.
    + injection H as -> H. destruct (IH _ H) as (t & ->). now exists t.
Qed.

Lemma bracket_past_citation (j : nat) (c b z y : jsstring) :
  ~ occurs (bracket j) c ->
  c ++ RPAREN :: b = z ++ bracket j ++ y ->
  exists z', z = c ++ RPAREN :: z' /\ b = z' ++ bracket j ++ y.
Proof.
  revert z; induction c as [|d c IH]; intros z Hc H.
  - destruct z as [|e z]; cbn [app] in H.
    + rewrite bracket_app in H. discriminate.
    + injection H as <- H. now exists z.
  - destruct z as [|e z]; cbn [app] in H.
    + exfalso. rewrite bracket_app in H. injection H as -> H.
      destruct (numeral_in_citation _ _ _ _ (number_to_string_digit j) H)
        as (t & ->).
      apply Hc. exists [], t. now rewrite bracket_app.
    + injection H as <- H.
      destruct (IH z) as (z' & -> & ->); auto.
      * intros (u & v & ->). apply Hc. now exists (d :: u), v.
      * now exists z'.
Qed.

Lemma linked_app (k : nat) (c b : jsstring) :
  linked k c ++ b
  = LBRACKET :: bracket k ++ RBRACKET :: LPAREN :: c ++ RPAREN :: b.
Proof.
  unfold linked, bracket. simpl. f_equal. f_equal.
  rewrite <- !app_assoc. simpl. now rewrite <- app_assoc.
Qed.

(** A link is apart from every marker other than its own that the
    citation does not contain. *)
Lemma bracket_apart_linked (j k : nat) (c : jsstring) :
  j <> k -> ~ occurs (bracket j) c -> apart (bracket j) (linked k c).
Proof.
  intros Hjk Hc a b x y H.
  rewrite linked_app in H.
  change (a ++ LBRACKET :: bracket k ++ RBRACKET :: LPAREN :: c ++ RPAREN :: b)
    with (a ++ [LBRACKET] ++ bracket k ++ RBRACKET :: LPAREN :: c ++ RPAREN :: b)
    in H.
  rewrite app_assoc in H.
  destruct (bracket_apart k j _ _ _ _ (not_eq_sym Hjk) H)
    as [(z & -> & Hz)|(z & Hz & ->)].
  - right.
    destruct z as [|e1 z]; cbn [app] in Hz; [try rewrite bracket_app in Hz; discriminate|].
    injection Hz as <- Hz.
    destruct z as [|e2 z]; cbn [app] in Hz; [try rewrite bracket_app in Hz; discriminate|].
    injection Hz as <- Hz.
    destruct (bracket_past_citation _ _ _ _ _ Hc Hz) as (z' & -> & ->).
    exists z'. split; [|reflexivity].
    rewrite linked_app, <- app_assoc. reflexivity.
  - left.
    destruct z as [|e z _] using rev_ind.
    + exfalso. rewrite app_nil_r in Hz. unfold bracket in Hz.
      rewrite !app_assoc in Hz. apply app_inj_tail in Hz as [_ Hz]. discriminate.
    + rewrite !app_assoc in Hz. apply app_inj_tail in Hz as [Hz <-].
      exists z. split.
      * now rewrite Hz, <- !app_assoc.
      * rewrite linked_app, <- !app_assoc. reflexivity.
Qed.

(** When [M] is apart from the pattern and the replacement holds no
    pattern, [replace] works on the text in front of [M] if the pattern
    occurs there, and on the text behind it otherwise. *)
Lemma replace_around (m M r a b : jsstring) :
  apart m M -> has_pattern r = false ->
  replace (a ++ M ++ b) m r
  = if occursb m a then replace a m r ++ M ++ b
    else a ++ M ++ replace b m r.
Proof.
  intros Hap Hr. unfold occursb.
  destruct (indexOf m a) as [n|] eqn:Ea.
  - destruct (replace_found _ _ r _ Ea) as (pre & post & -> & _ & Hmin & ->).
    replace ((pre ++ m ++ post) ++ M ++ b)
      with (pre ++ m ++ (post ++ M ++ b)) by now rewrite <- !app_assoc.
    rewrite replace_first.
    + rewrite !get_substitution_plain by assumption.
      now rewrite <- !app_assoc.
    + intros x y H.
      replace (pre ++ m ++ post ++ M ++ b)
        with ((pre ++ m ++ post) ++ M ++ b) in H by now rewrite <- !app_assoc.
      destruct (Hap _ _ _ _ H) as [(z & Hz & _)|(z & -> & _)].
      * now apply (Hmin x z).
      * rewrite !length_app. lia.
  - apply indexOf_None in Ea.
    destruct (indexOf m b) as [n|] eqn:Eb.
    + destruct (replace_found _ _ r _ Eb) as (pre & post & -> & _ & Hmin & ->).
      replace (a ++ M ++ pre ++ m ++ post)
        with ((a ++ M ++ pre) ++ m ++ post) by now rewrite <- !app_assoc.
      rewrite replace_first.
      * rewrite !get_substitution_plain by assumption.
        now rewrite <- !app_assoc.
      * intros x y H. rewrite <- !app_assoc in H.
        destruct (Hap _ _ _ _ H) as [(z & -> & _)|(z & -> & Hz)].
        -- exfalso. apply Ea. now exists x, z.
        -- apply Hmin in Hz. rewrite !length_app. lia.
    + apply indexOf_None in Eb.
      rewrite (replace_absent b) by assumption.
      apply replace_absent. intros (x & y & H).
      destruct (Hap _ _ _ _ H) as [(z & -> & _)|(z & _ & ->)].
      * apply Ea. now exists x, z.
      * apply Eb. now exists z, y.
Qed.

(** *** Markers the step does not look for *)

(** Replacing ["[j]"] keeps every occurrence of another marker ["[k]"],
    whatever the replacement is. *)
Lemma replace_keeps (j k : nat) (r s : jsstring) :
  j <> k ->
  occurs (bracket k) s -> occurs (bracket k) (replace s (bracket j) r).
Proof.
  intros Hjk (x & y & Hs).
  destruct (indexOf (bracket j) s) as [n|] eqn:E.
  - destruct (replace_found _ _ r _ E) as (pre & post & Hs' & _ & _ & ->).
    rewrite Hs' in Hs.
    destruct (bracket_apart j k _ _ _ _ Hjk Hs) as [(z & -> & Hz)|(z & Hz & ->)].
    + rewrite Hz at 2.
      exists (pre ++ get_substitution (bracket j) pre post r ++ z), y.
      now rewrite <- !app_assoc.
    + rewrite Hz at 1. exists x. eexists. now rewrite <- !app_assoc.
  - unfold replace. rewrite E. now exists x, y.
Qed.

Lemma forEach_keeps (citations : list jsstring) :
  forall (index : nat) (s : jsstring) (k : nat),
    index + length citations < k ->
    occurs (bracket k) s ->
    occurs (bracket k) (forEach_from index citations s).
Proof.
  induction citations as [|c rest IH]; intros index s k Hk Hs;
    cbn [forEach_from]; [assumption|].
  cbn [length] in Hk. apply IH; [lia|].
  rewrite marker_bracket. apply replace_keeps; [lia|assumption].
Qed.

(** *** Citations without patterns and without marker text *)

Lemma plain_citation_plain (n : nat) (citation : jsstring) :
  plain_citation n citation = true -> plain n citation.
Proof.
  unfold plain_citation. intros H. apply andb_true_iff in H as [Hp Hm].
  split.
  - now apply negb_true_iff.
  - intros k Hk. apply occursb_false, negb_true_iff.
    rewrite forallb_forall in Hm. apply Hm. apply in_seq. lia.
Qed.

Lemma plain_citations_Forall (citations : list jsstring) :
  plain_citations citations = true ->
  Forall (plain (length citations)) citations.
Proof.
  unfold plain_citations. intros H. rewrite forallb_forall in H.
  apply Forall_forall. intros c Hc. now apply plain_citation_plain, H.
Qed.

Lemma has_pattern_digits (n t : jsstring) :
  Forall digit n -> has_pattern (n ++ t) = has_pattern t.
Proof.
  induction 1 as [|c n Hc Hn IH]; [reflexivity|].
  cbn [app]. rewrite has_pattern_cons; [assumption|].
  now destruct (digit_not_bracket _ Hc) as (_ & _ & _ & ?).
Qed.

(** The replacement of the callback holds a pattern only if the citation
    does. *)
Lemma has_pattern_link (index : nat) (citation : jsstring) :
  has_pattern citation = false -> has_pattern (link index citation) = false.
Proof.
  intros H. unfold link. cbn [app].
  rewrite !has_pattern_cons by discriminate.
  rewrite has_pattern_digits by apply number_to_string_digit.
  cbn [app]. rewrite !has_pattern_cons by discriminate.
  now apply has_pattern_close.
Qed.

(** With a citation free of patterns, the step puts the link text in the
    place of the first marker. *)
Lemma replace_first_marker (index : nat) (citation pre post : jsstring) :
  has_pattern citation = false ->
  (forall x y, pre ++ marker index ++ post = x ++ marker index ++ y ->
               length pre <= length x) ->
  replace (pre ++ marker index ++ post) (marker index) (link index citation)
  = pre ++ link index citation ++ post.
Proof.
  intros Hc Hmin. rewrite replace_first by assumption.
  now rewrite get_substitution_plain by now apply has_pattern_link.
Qed.

(** A step with a plain citation brings no marker ["[k]"] into a text
    that has none. *)
Lemma replace_no_new (index k : nat) (citation a : jsstring) :
  index + 1 <> k ->
  has_pattern citation = false ->
  ~ occurs (bracket k) citation ->
  ~ occurs (bracket k) a ->
  ~ occurs (bracket k) (replace a (marker index) (link index citation)).
Proof.
  intros Hk Hp Hc Ha.
  destruct (indexOf (marker index) a) as [n|] eqn:E.
  - destruct (replace_found _ _ (link index citation) _ E)
      as (pre & post & -> & _ & Hmin & ->).
    rewrite get_substitution_plain by now apply has_pattern_link.
    rewrite link_linked. intros (x & y & H).
    destruct (bracket_apart_linked k (index + 1) citation (not_eq_sym Hk) Hc
                _ _ _ _ H) as [(z & -> & _)|(z & _ & ->)].
    + apply Ha. exists x. eexists. now rewrite <- !app_assoc.
    + apply Ha. exists (pre ++ marker index ++ z), y. now rewrite <- !app_assoc.
  - unfold replace. now rewrite E.
Qed.

(** Once the link for citation [k] is in the text, the later steps work in
    front of it or behind it. *)
Lemma linked_stays (citations : list jsstring) :
  forall (index k n : nat) (c a b : jsstring),
    Forall (plain n) citations ->
    k <= index -> index + length citations <= n ->
    plain n c ->
    forEach_from index citations (a ++ linked k c ++ b)
    = forEach_from index citations a ++ linked k c
      ++ forEach_behind index citations a b.
Proof.
  induction citations as [|cj rest IH]; intros index k n c a b Hall Hk Hn Hc;
    cbn [forEach_from forEach_behind].
  - reflexivity.
  - inversion Hall as [|? ? [Hpj Hmj] Hrest]; subst. cbn [length] in Hn.
    rewrite replace_around.
    + destruct (occursb (marker index) a) eqn:Eo.
      * apply IH with (n := n); auto; lia.
      * apply occursb_false in Eo.
        rewrite (replace_absent a) by assumption.
        apply IH with (n := n); auto; lia.
    + rewrite marker_bracket. apply bracket_apart_linked; [lia|].
      apply Hc. lia.
    + now apply has_pattern_link.
Qed.

(** The steps in front of citation [k] leave its only marker in place,
    step [k] turns it into the link, and the link stays. *)
Lemma bracket_linked_from (citations : list jsstring) :
  forall (index d n : nat) (c a b : jsstring),
    Forall (plain n) citations ->
    index + length citations <= n ->
    nth_error citations d = Some c ->
    ~ occurs (bracket (index + d + 1)) a ->
    ~ occurs (bracket (index + d + 1)) b ->
    forEach_from index citations (a ++ bracket (index + d + 1) ++ b)
    = forEach_from index citations a ++ linked (index + d + 1) c
      ++ forEach_behind index citations a b.
Proof.
  induction citations as [|cj rest IH]; intros index d n c a b Hall Hn Hd Ha Hb.
  - destruct d; discriminate.
  - inversion Hall as [|? ? [Hpj Hmj] Hrest]; subst. cbn [length] in Hn.
    cbn [forEach_from forEach_behind].
    destruct d as [|d]; cbn [nth_error] in Hd.
    + injection Hd as ->. rewrite Nat.add_0_r in *.
      rewrite <- marker_bracket in Ha, Hb.
      apply occursb_false in Ha as Ha'. rewrite Ha'.
      rewrite (replace_absent a), (replace_absent b) by assumption.
      rewrite <- marker_bracket, replace_first_marker; [|assumption|].
      * rewrite link_linked.
        apply linked_stays with (n := n); auto; try lia. now split.
      * intros x y H. rewrite marker_bracket in *.
        destruct (bracket_same _ _ _ _ _ H) as [->|[(z & ->)|(z & ->)]].
        -- lia.
        -- rewrite !length_app. lia.
        -- exfalso. apply Ha. now exists x, z.
    + assert (Hlen : d < length rest) by (apply nth_error_Some; congruence).
      replace (index + S d + 1) with (S index + d + 1) in * by lia.
      assert (Hne : index + 1 <> S index + d + 1) by lia.
      assert (Hcj : ~ occurs (bracket (S index + d + 1)) cj)
        by (apply Hmj; lia).
      pose proof (replace_no_new index _ cj a Hne Hpj Hcj Ha) as Ha'.
      pose proof (replace_no_new index _ cj b Hne Hpj Hcj Hb) as Hb'.
      rewrite replace_around.
      * destruct (occursb (marker index) a) eqn:Eo.
        -- apply IH with (n := n); auto; lia.
        -- apply occursb_false in Eo.
           rewrite (replace_absent a) in * by assumption.
           apply IH with (n := n); auto; lia.
      * rewrite marker_bracket. now apply bracket_apart_bracket.
      * now apply has_pattern_link.
Qed.

(** *** Counting occurrences *)

Lemma occurrences_app_le (p x s : jsstring) :
  occurrences p s <= occurrences p (x ++ s).
Proof.
  induction x as [|c x IH]; [reflexivity|].
  cbn [app occurrences]. lia.
Qed.

Lemma occurrences_here (c : code_unit) (p t : jsstring) :
  occurrences (c :: p) ((c :: p) ++ t) = 1 + occurrences (c :: p) (p ++ t).
Proof.
  cbn [app occurrences].
  change (c :: p ++ t) with ((c :: p) ++ t).
  now rewrite starts_with_app.
Qed.

(** A pattern that occurs once in a text does not occur in front of that
    occurrence. *)
Lemma occurrences_once (p pre post : jsstring) :
  p <> [] ->
  occurrences p (pre ++ p ++ post) = 1 -> ~ occurs p pre.
Proof.
  intros Hp H (x & z & ->). destruct p as [|c p]; [contradiction|].
  rewrite <- !app_assoc in H.
  pose proof (occurrences_app_le (c :: p) x
                ((c :: p) ++ z ++ (c :: p) ++ post)) as H1.
  rewrite occurrences_here in H1.
  pose proof (occurrences_app_le (c :: p) (p ++ z) ((c :: p) ++ post)) as H2.
  rewrite occurrences_here in H2.
  rewrite <- app_assoc in H2. lia.
Qed.

Lemma occurrences_once_behind (p pre post : jsstring) :
  p <> [] ->
  occurrences p (pre ++ p ++ post) = 1 -> ~ occurs p post.
Proof.
  intros Hp H (x & z & ->). destruct p as [|c p]; [contradiction|].
  pose proof (occurrences_app_le (c :: p) pre
                ((c :: p) ++ x ++ (c :: p) ++ z)) as H1.
  rewrite occurrences_here in H1.
  pose proof (occurrences_app_le (c :: p) (p ++ x) ((c :: p) ++ z)) as H2.
  rewrite occurrences_here in H2.
  rewrite <- app_assoc in H2. lia.
Qed.

Lemma bracket_not_nil (k : nat) : bracket k <> [].
Proof. discriminate. Qed.

(** *** The expansion of the replacement of the callback *)

Lemma get_substitution_link (matched before after : jsstring)
    (index : nat) (citation : jsstring) :
  get_substitution matched before after (link index citation)
  = link index (get_substitution matched before after citation).
Proof.
  unfold link.
  rewrite (get_substitution_no_dollar _ _ _ [LBRACKET; LBRACKET]).
  2:{ cbn. intros [H|[H|[]]]; discriminate. }
  rewrite get_substitution_no_dollar.
  2:{ intros H. pose proof (number_to_string_digit (index + 1)) as Hd.
      rewrite Forall_forall in Hd. apply Hd in H.
      now destruct (digit_not_bracket _ H) as (_ & _ & _ & ?). }
  rewrite (get_substitution_no_dollar _ _ _ [RBRACKET; RBRACKET; LPAREN]).
  2:{ cbn. intros [H|[H|[H|[]]]]; discriminate. }
  now rewrite get_substitution_close.
Qed.

(** *** The steps in ascending order *)

(** The result for one more citation is one more step on the result so
    far: the steps run in the order of the citations, each on the text the
    step before it has left. *)
Lemma forEach_from_snoc (citations : list jsstring) (c : jsstring) :
  forall (index : nat) (s : jsstring),
    forEach_from index (citations ++ [c]) s
    = replace (forEach_from index citations s)
        (marker (index + length citations))
        (link (index + length citations) c).
Proof.
  induction citations as [|cj rest IH]; intros index s;
    cbn [app forEach_from length].
  - now rewrite Nat.add_0_r.
  - rewrite IH. now rewrite Nat.add_succ_comm.
Qed.

Lemma formatAnswerWithCitations_snoc (answer : jsstring)
    (citations : list jsstring) (c : jsstring) :
  formatAnswerWithCitations answer (citations ++ [c])
  = replace (formatAnswerWithCitations answer citations)
      (marker (length citations)) (link (length citations) c).
Proof. apply forEach_from_snoc. Qed.

Example first_occurrence_only :
  formatAnswerWithCitations (str "[1] and again [1]") [str "https://a.com"]
  = str "[[1]](https://a.com) and again [1]".
Proof. reflexivity. Qed.

Example citation_order_not_text_order :
  formatAnswerWithCitations (str "[2] before [1]")
    [str "https://a.com/[2]"; str "https://b.com"]
  = str "[[2]](https://b.com) before [[1]](https://a.com/[2])".
Proof. reflexivity. Qed.

End ResolverFacts.

Import ResolverFacts.

(** ** Steps around a piece that no step touches *)

Module AroundFacts.

Lemma indexOf_parts (m s : jsstring) (n : nat) :
  indexOf m s = Some n ->
  s = firstn n s ++ m ++ skipn (n + length m) s
  /\ length (firstn n s) = n
  /\ (forall x y, s = x ++ m ++ y -> length (firstn n s) <= length x).
Proof.
  intros H. destruct (indexOf_Some _ _ _ H) as (p & q & Hs & Hlen & Hmin).
  assert (Hp : firstn n s = p).
  { rewrite Hs, <- Hlen.
    now rewrite firstn_app, Nat.sub_diag, firstn_all, firstn_O, app_nil_r. }
  assert (Hq : skipn (n + length m) s = q).
  { rewrite Hs, app_assoc, <- Hlen, <- length_app.
    now rewrite skipn_app, Nat.sub_diag, skipn_all, skipn_O. }
  rewrite Hp, Hq. repeat split; auto.
  intros x y Hxy. rewrite Hlen. eauto.
Qed.

(** When [M] is apart from the pattern, [replace] rewrites in front of
    [M] if the pattern occurs there and behind [M] otherwise, whatever the
    replacement is. *)
Lemma replace_around_within (m M r a b : jsstring) :
  apart m M ->
  replace (a ++ M ++ b) m r
  = if occursb m a then replace_within [] (M ++ b) a m r ++ M ++ b
    else a ++ M ++ replace_within (a ++ M) [] b m r.
Proof.
  intros Hap. unfold occursb, replace_within.
  destruct (indexOf m a) as [n|] eqn:Ea.
  - destruct (indexOf_parts _ _ _ Ea) as (Hs & _ & Hmin).
    set (pre := firstn n a) in *. set (post := skipn (n + length m) a) in *.
    rewrite Hs at 1.
    replace ((pre ++ m ++ post) ++ M ++ b)
      with (pre ++ m ++ (post ++ M ++ b)) by now rewrite <- !app_assoc.
    rewrite replace_first.
    + cbn [app]. now rewrite <- !app_assoc.
    + intros x y H.
      replace (pre ++ m ++ post ++ M ++ b)
        with ((pre ++ m ++ post) ++ M ++ b) in H by now rewrite <- !app_assoc.
      rewrite <- Hs in H.
      destruct (Hap _ _ _ _ H) as [(z & Hz & _)|(z & -> & _)].
      * now apply (Hmin x z).
      * rewrite !length_app. rewrite Hs at 1. rewrite !length_app. lia.
  - apply indexOf_None in Ea.
    destruct (indexOf m b) as [n|] eqn:Eb.
    + destruct (indexOf_parts _ _ _ Eb) as (Hs & _ & Hmin).
      set (pre := firstn n b) in *. set (post := skipn (n + length m) b) in *.
      rewrite Hs at 1.
      replace (a ++ M ++ pre ++ m ++ post)
        with ((a ++ M ++ pre) ++ m ++ post) by now rewrite <- !app_assoc.
      rewrite replace_first.
      * now rewrite app_nil_r, <- !app_assoc.
      * intros x y H. rewrite <- !app_assoc in H. rewrite <- Hs in H.
        destruct (Hap _ _ _ _ H) as [(z & -> & _)|(z & -> & Hz)].
        -- exfalso. apply Ea. now exists x, z.
        -- apply Hmin in Hz. rewrite !length_app. lia.
    + apply indexOf_None in Eb.
      apply replace_absent. intros (x & y & H).
      destruct (Hap _ _ _ _ H) as [(z & -> & _)|(z & _ & ->)].
      * apply Ea. now exists x, z.
      * apply Eb. now exists z, y.
Qed.

(** The steps on a text around a piece that is apart from all their
    markers. *)
Lemma forEach_around_spec (citations : list jsstring) :
  forall (index : nat) (a M b : jsstring),
    (forall j, index <= j < index + length citations ->
               apart (marker j) M) ->
    forEach_from index citations (a ++ M ++ b)
    = fst (forEach_around index citations a M b) ++ M
      ++ snd (forEach_around index citations a M b).
Proof.
  induction citations as [|c rest IH]; intros index a M b Hap;
    cbn [forEach_from forEach_around]; [reflexivity|].
  cbn [length] in Hap.
  rewrite replace_around_within by (apply Hap; lia).
  destruct (occursb (marker index) a); apply IH; intros j Hj; apply Hap; lia.
Qed.

End AroundFacts.

Import AroundFacts.

(** ** The loop over the array *)

Module CallFacts.

Lemma skipn_nth_error (l : list jsstring) :
  forall (k : nat) (x : jsstring),
    nth_error l k = Some x -> skipn k l = x :: skipn (S k) l.
Proof.
  induction l as [|y l IH]; intros [|k] x H; cbn in H; try discriminate.
  - now injection H as ->.
  - cbn [skipn]. now apply IH.
Qed.

(** The loop assigns to [formattedAnswer] what the steps for the elements
    [k], [k+1], ... give, and passes the world on as it found it. *)
Lemma forEach_loop_spec (O : nat) (elements : list jsstring) :
  forall (len k : nat) (env : Frame * World),
    nth_error (arrays (snd env)) O = Some elements ->
    forEach_loop len k O env
    = ({| formattedAnswer :=
            forEach_from k (firstn len (skipn k elements))
              (formattedAnswer (fst env)) |},
       snd env).
Proof.
  induction len as [|len IH]; intros k [[s] w] H; cbn [fst snd] in *.
  - reflexivity.
  - cbn [forEach_loop snd]. rewrite H.
    destruct (nth_error elements k) as [x|] eqn:E.
    + rewrite (skipn_nth_error _ _ _ E). cbn [firstn forEach_from].
      rewrite IH by exact H. reflexivity.
    + apply nth_error_None in E.
      rewrite IH by exact H. cbn [fst snd formattedAnswer].
      rewrite !skipn_all2 by lia. now rewrite !firstn_nil.
Qed.

End CallFacts.

Import CallFacts.

(** ** The resolver: the claims *)

(** C1 (the code departs from it).  The claim: step [i] puts
    ["[[i+1]](citations[i])"] in the place of the first ["[i+1]"].  With the
    citation ["https://a.com/?q=$&"] the code links the marker to
    ["https://a.com/?q=[1]"] instead: the replacement argument of
    [String.prototype.replace] is expanded, and [$&] stands for the matched
    text. *)
Theorem C1_citation_with_pattern_not_linked :
  formatAnswerWithCitations (str "See [1].") [str "https://a.com/?q=$&"]
  = str "See [[1]](https://a.com/?q=[1])."
  /\ formatAnswerWithCitations (str "See [1].") [str "https://a.com/?q=$&"]
     <> str "See " ++ linked 1 (str "https://a.com/?q=$&") ++ str ".".
Proof.
  split; [reflexivity|]. vm_compute. discriminate.
Qed.

(** C2 (as stated, refuted).  ["[1]"] occurs once in the answer and in no
    link, yet the output does not contain ["[[1]](citations[0])"]: the step
    for citation 2 rewrites the ["[2]"] that citation 1 brought in. *)
Lemma C2_later_step_rewrites_link :
  ~ (occurrences (bracket 1) (str "See [1].") = 1 ->
     occurs (linked 1 (str "https://a.com/[2]"))
       (formatAnswerWithCitations (str "See [1].")
          [str "https://a.com/[2]"; str "https://b.com"])).
Proof.
  intros H. specialize (H eq_refl).
  apply occursb_true in H. vm_compute in H. discriminate.
Qed.

(** C2 (amended).  For [k] in [1..citations.length], if ["[k]"] occurs
    exactly once in the answer, and no citation holds a replacement pattern
    or the text of one of the markers ["[1]"] .. ["[n]"], then that
    occurrence is replaced by ["[[k]](citations[k-1])"]: the output is the
    resolved text in front of the marker, the link, and the text behind the
    marker after the steps whose marker does not occur in front. *)
Theorem C2_unique_marker_linked (answer : jsstring)
    (citations : list jsstring) (k : nat) (url pre post : jsstring) :
  1 <= k ->
  nth_error citations (k - 1) = Some url ->
  answer = pre ++ bracket k ++ post ->
  occurrences (bracket k) answer = 1 ->
  plain_citations citations = true ->
  formatAnswerWithCitations answer citations
  = formatAnswerWithCitations pre citations ++ linked k url
    ++ forEach_behind 0 citations pre post.
Proof.
  intros Hk Hurl -> Honce Hplain.
  pose proof (occurrences_once _ _ _ (bracket_not_nil k) Honce) as Hpre.
  pose proof (occurrences_once_behind _ _ _ (bracket_not_nil k) Honce) as Hpost.
  unfold formatAnswerWithCitations.
  replace k with (0 + (k - 1) + 1) in * by lia.
  replace (0 + (k - 1) + 1 - 1) with (k - 1) in Hurl by lia.
  apply bracket_linked_from with (n := length citations); auto.
  now apply plain_citations_Forall.
Qed.

Lemma C2_unique_marker_linked_witness :
  formatAnswerWithCitations
    (str "Use ibuprofen cautiously [1]. See also [2] for dosage.")
    [str "https://a.com"; str "https://b.com"]
  = formatAnswerWithCitations (str "Use ibuprofen cautiously [1]. See also ")
      [str "https://a.com"; str "https://b.com"]
    ++ linked 2 (str "https://b.com")
    ++ forEach_behind 0 [str "https://a.com"; str "https://b.com"]
         (str "Use ibuprofen cautiously [1]. See also ") (str " for dosage.").
Proof.
  apply (C2_unique_marker_linked
           (str "Use ibuprofen cautiously [1]. See also [2] for dosage.")
           [str "https://a.com"; str "https://b.com"] 2 (str "https://b.com")
           (str "Use ibuprofen cautiously [1]. See also ")
           (str " for dosage."));
    [lia | reflexivity | reflexivity | reflexivity | reflexivity].
Defined.

(** C3.  With no citations the answer comes back unchanged, for every
    answer; so for ["No sources here."]. *)
Theorem C3_no_citations_unchanged :
  (forall answer, formatAnswerWithCitations answer [] = answer)
  /\ formatAnswerWithCitations (str "No sources here.") []
     = str "No sources here.".
Proof. split; reflexivity. Qed.

(** C4.  A marker ["[k]"] with [k] above the number of citations is left
    untouched, wherever it stands in the answer and whatever the citations
    are: the output is the text in front of the marker as the steps rewrite
    it, the marker itself, and the text behind it as the steps rewrite it.
    Each step rewrites an occurrence of its own marker in front of ["[k]"],
    or else behind it; none rewrites ["[k]"] or text across it.  So for
    ["[5]"] with three citations. *)
Theorem C4_marker_beyond_citations_untouched (answer : jsstring)
    (citations : list jsstring) (k : nat) (pre post : jsstring) :
  length citations < k ->
  answer = pre ++ bracket k ++ post ->
  formatAnswerWithCitations answer citations
  = fst (forEach_around 0 citations pre (bracket k) post)
    ++ bracket k
    ++ snd (forEach_around 0 citations pre (bracket k) post).
Proof.
  intros Hk ->. unfold formatAnswerWithCitations.
  apply forEach_around_spec. intros j Hj.
  rewrite marker_bracket. apply bracket_apart_bracket. lia.
Qed.

Lemma C4_marker_beyond_citations_untouched_witness :
  formatAnswerWithCitations (str "Known [1] and [3], unknown [5], see [2].")
    [str "https://a.com"; str "https://b.com/$'"; str "https://c.com"]
  = str "Known [[1]](https://a.com) and [[3]](https://c.com), unknown "
    ++ bracket 5
    ++ str ", see [[2]](https://b.com/.).".
Proof.
  exact (C4_marker_beyond_citations_untouched
           (str "Known [1] and [3], unknown [5], see [2].")
           [str "https://a.com"; str "https://b.com/$'"; str "https://c.com"]
           5 (str "Known [1] and [3], unknown ") (str ", see [2].")
           ltac:(cbn [length]; lia) eq_refl).
Defined.

(** C5.  The scenario with two citations. *)
Theorem C5_two_citations_scenario :
  formatAnswerWithCitations
    (str "Use ibuprofen cautiously [1]. See also [2] for dosage.")
    [str "https://a.com"; str "https://b.com"]
  = str "Use ibuprofen cautiously [[1]](https://a.com). See also [[2]](https://b.com) for dosage.".
Proof. reflexivity. Qed.

(** C6.  The resolver is not idempotent: the link it writes holds the
    marker again, and a second run rewrites that. *)
Theorem C6_not_idempotent :
  exists answer citations,
    occurs (bracket 1) (formatAnswerWithCitations answer citations)
    /\ formatAnswerWithCitations
         (formatAnswerWithCitations answer citations) citations
       <> formatAnswerWithCitations answer citations.
Proof.
  exists (str "See [1]."), [str "https://a.com"]. split.
  - exists (str "See ["), (str "](https://a.com)."). reflexivity.
  - vm_compute. discriminate.
Qed.

(** C7.  A call of the function in any world, on an answer and the
    address of an array, returns what the steps for the elements of the
    array make of the answer and leaves the world as it found it: no array
    object is changed, the one passed included, and no request is sent; the
    only assignments are to the variable of the function body.  Two calls
    with equal answers on arrays with equal elements return equal strings,
    at whatever addresses and in whatever worlds. *)
Theorem C7_no_side_effect_deterministic (answer1 answer2 : jsstring)
    (citations1 citations2 : list jsstring) (address1 address2 : nat)
    (w1 w2 : World) :
  nth_error (arrays w1) address1 = Some citations1 ->
  nth_error (arrays w2) address2 = Some citations2 ->
  formatAnswerWithCitations_call answer1 address1 w1
  = Some (formatAnswerWithCitations answer1 citations1, w1)
  /\ (answer1 = answer2 ->
      citations1 = citations2 ->
      option_map fst (formatAnswerWithCitations_call answer1 address1 w1)
      = option_map fst (formatAnswerWithCitations_call answer2 address2 w2)).
Proof.
  intros H1 H2.
  assert (Hcall : forall answer citations address w,
             nth_error (arrays w) address = Some citations ->
             formatAnswerWithCitations_call answer address w
             = Some (formatAnswerWithCitations answer citations, w)).
  { intros answer citations address w H.
    unfold formatAnswerWithCitations_call. rewrite H.
    rewrite (forEach_loop_spec address citations) by exact H.
    cbn [fst snd formattedAnswer skipn]. now rewrite firstn_all. }
  split.
  - now apply Hcall.
  - intros -> ->.
    now rewrite (Hcall _ _ _ _ H1), (Hcall _ _ _ _ H2).
Qed.

Lemma C7_no_side_effect_deterministic_witness :
  let w1 :=
    {| arrays := [[str "x"]; [str "https://a.com"; str "https://b.com"]];
       requests := [POST_ask (str "flu?")] |} in
  let w2 :=
    {| arrays := [[str "https://a.com"; str "https://b.com"]];
       requests := [] |} in
  formatAnswerWithCitations_call (str "See [1] and [2].") 1 w1
  = Some (str "See [[1]](https://a.com) and [[2]](https://b.com).", w1)
  /\ option_map fst (formatAnswerWithCitations_call (str "See [1] and [2].") 1 w1)
     = option_map fst (formatAnswerWithCitations_call (str "See [1] and [2].") 0 w2).
Proof.
  intros w1 w2.
  destruct (C7_no_side_effect_deterministic
              (str "See [1] and [2].") (str "See [1] and [2].")
              [str "https://a.com"; str "https://b.com"]
              [str "https://a.com"; str "https://b.com"] 1 0 w1 w2
              eq_refl eq_refl) as [Hcall Hsame].
  split; [exact Hcall|exact (Hsame eq_refl eq_refl)].
Defined.




(** ** The submission flow *)

Module PageFacts.

(** [askQuestion] sends nothing for a question that trims to the empty
    string, and exactly one request otherwise. *)
Lemma askQuestion_blank (s : State) :
  truthy (trim (question s)) = false -> askQuestion s = (s, []).
Proof. intros H. unfold askQuestion. now rewrite H. Qed.

Lemma askQuestion_sends (s : State) :
  truthy (trim (question s)) = true ->
  askQuestion s
  = (setError None (setResult VNull (setLoading true s)),
     [POST_ask (question s)]).
Proof. intros H. unfold askQuestion. now rewrite H. Qed.

(** No user event starts a request while the question is blank. *)
Lemma blank_question_no_request (e : Event) (s : State) :
  truthy (trim (question s)) = false ->
  (forall v, e <> Change v) ->
  snd (handle e s) = [].
Proof.
  intros H He. destruct e as [v| |key shiftKey|n o]; cbn [handle].
  - now destruct (He v).
  - unfold onClick, button_disabled. rewrite H, orb_true_r. reflexivity.
  - unfold handleKeyPress.
    destruct (string_eqb key (str "Enter") && negb shiftKey);
      [now rewrite askQuestion_blank|reflexivity].
  - reflexivity.
Qed.

(** The button starts no request while a request is pending. *)
Lemma click_while_loading_no_request (s : State) :
  loading s = true -> handle Click s = (s, []).
Proof.
  intros H. cbn [handle]. unfold onClick, button_disabled. now rewrite H.
Qed.

Lemma type_all_keeps (values : list jsstring) (s : State) :
  loading (type_all values s) = loading s
  /\ result (type_all values s) = result s
  /\ error (type_all values s) = error s.
Proof.
  unfold type_all.
  revert s; induction values as [|v values IH]; intros s; cbn [fold_left];
    [auto|].
  destruct (IH (setQuestion v s)) as (-> & -> & ->). auto.
Qed.

(** With two requests outstanding, the result of one is shown beside the
    error of the other. *)
(** The resolver on the values of a well-typed call. *)
Lemma forEach_any_strings (citations : list jsstring) :
  forall (index : nat) (s : jsstring),
    forEach_any index (map VString citations) (VString s)
    = Some (VString (forEach_from index citations s)).
Proof.
  induction citations as [|c rest IH]; intros index s; [reflexivity|].
  cbn [map forEach_any forEach_from to_string]. apply IH.
Qed.

(** The card for an object with a string under [answer] and an array of
    strings under [citations]. *)
Lemma card_strings (r : Value) (a : jsstring) (cs : list jsstring) :
  get (str "answer") r = Some (VString a) ->
  get (str "citations") r = Some (VArray (map VString cs)) ->
  card r = Shown (VString (formatAnswerWithCitations a cs)) (map VString cs).
Proof.
  intros Ha Hc. unfold card. rewrite Ha, Hc.
  unfold formatAnswerWithCitations_any. now rewrite forEach_any_strings.
Qed.

Lemma card_query_result (r : QueryResult) :
  card (query_result r)
  = Shown (VString (formatAnswerWithCitations (answer r) (citations r)))
      (map VString (citations r)).
Proof. apply card_strings; reflexivity. Qed.

(** With two requests outstanding, the result of one is shown beside the
    error of the other. *)
Lemma stale_result_beside_error (r : QueryResult) :
  exists w,
    run start
      [Change (str "flu?"); KeyDown (str "Enter") false;
       KeyDown (str "Enter") false;
       Settle 0 (Response 200 (Json (query_result r)));
       Settle 0 (Response 500 (NotJson []))]
    = Some w
    /\ error_box (render (view w)) = Some (str "HTTP error! Status: 500")
    /\ result_card (render (view w))
       = Some (Shown
                 (VString (formatAnswerWithCitations (answer r) (citations r)))
                 (map VString (citations r))).
Proof.
  eexists. split; [reflexivity|]. split; [reflexivity|].
  cbn [render result_card]. cbn -[card query_result].
  now rewrite card_query_result.
Qed.

End PageFacts.

Import PageFacts.

(** ** The submission flow: the claims *)

(** C8 (the code departs from it).  The claim: no submit action starts a
    request while one is pending.  After typing a question and pressing
    Enter the page is loading with one request outstanding, and pressing
    Enter again starts a second request: [handleKeyPress] calls
    [askQuestion], whose guard looks at the question only. *)
Theorem C8_enter_while_pending_starts_request :
  exists w w',
    run start [Change (str "flu?"); KeyDown (str "Enter") false] = Some w
    /\ reachable w
    /\ loading (view w) = true
    /\ outstanding w = [POST_ask (str "flu?")]
    /\ submit_action (KeyDown (str "Enter") false)
    /\ snd (handle (KeyDown (str "Enter") false) (view w))
       = [POST_ask (str "flu?")]
    /\ step w (KeyDown (str "Enter") false) = Some w'
    /\ outstanding w' = [POST_ask (str "flu?"); POST_ask (str "flu?")].
Proof.
  eexists. eexists. split; [reflexivity|].
  split.
  { exists [Change (str "flu?"); KeyDown (str "Enter") false]. reflexivity. }
  split; [reflexivity|]. split; [reflexivity|].
  split; [now right|]. split; [reflexivity|].
  split; reflexivity.
Qed.

(** C9 (as stated, refuted).  The error string of a network failure is the
    message of the rejection; there is no HTTP status it could be derived
    from. *)
Lemma C9_network_failure_message_not_from_status :
  ~ (forall o s,
       failure o = true ->
       exists status, error (askQuestion_settled o s) = Some (http_error status)).
Proof.
  intros H.
  destruct (H (Rejected (str "Failed to fetch")) initial_state eq_refl)
    as (status & Hs).
  cbn in Hs. discriminate.
Qed.

(** C9 (amended).  A question that does not trim to the empty string is
    submitted, the user may go on typing, and the request fails (network
    failure or status outside 200-299) before any other response is
    handled.  Then the page holds one error string (["HTTP error! Status:
    <status>"] for a response, the message of the rejection for a network
    failure) and shows it when it is not empty; loading is cleared; no
    result is stored and no result card is rendered; and the input is
    usable: typing a question that does not trim to the empty string
    enables the button, and a click sends it. *)
Theorem C9_failure_is_reported (s : State) (typed : list jsstring)
    (o : Outcome) :
  truthy (trim (question s)) = true ->
  failure o = true ->
  let submitted := fst (askQuestion s) in
  let settled := askQuestion_settled o (type_all typed submitted) in
  snd (askQuestion s) = [POST_ask (question s)]
  /\ error settled = Some (failure_message o)
  /\ (truthy (failure_message o) = true ->
      error_box (render settled) = Some (failure_message o))
  /\ (forall status body,
        o = Response status body ->
        error_box (render settled)
        = Some (str "HTTP error! Status: " ++ number_to_string status))
  /\ loading settled = false
  /\ skeleton (render settled) = false
  /\ result settled = VNull
  /\ result_card (render settled) = None
  /\ (forall v,
        truthy (trim v) = true ->
        disabled (render (setQuestion v settled)) = false
        /\ snd (handle Click (setQuestion v settled)) = [POST_ask v]).
Proof.
  intros Hq Ho submitted settled.
  subst submitted settled. rewrite (askQuestion_sends _ Hq). cbn [fst snd].
  set (s1 := setError None (setResult VNull (setLoading true s))).
  destruct (type_all_keeps typed s1) as (Hl & Hr & He).
  set (s2 := type_all typed s1) in *.
  assert (Herr : error (askQuestion_settled o s2) = Some (failure_message o)).
  { destruct o as [m|status body]; cbn in *; [reflexivity|].
    now rewrite Ho. }
  assert (Hres : result (askQuestion_settled o s2) = VNull).
  { destruct o as [m|status body]; cbn in *; [exact Hr|].
    rewrite Ho. exact Hr. }
  assert (Hload : loading (askQuestion_settled o s2) = false) by reflexivity.
  split; [reflexivity|]. split; [exact Herr|]. split.
  { intros Hm. cbn [render error_box]. now rewrite Herr, Hm. }
  split.
  { intros status body ->. cbn [render error_box]. rewrite Herr. reflexivity. }
  split; [exact Hload|]. split; [exact Hload|]. split; [exact Hres|]. split.
  { cbn [render result_card]. now rewrite Hload, Hres. }
  intros v Hv. split.
  - cbn [render disabled]. unfold button_disabled. cbn -[trim]. now rewrite Hv.
  - cbn [handle]. unfold onClick, button_disabled, askQuestion. cbn -[trim].
    now rewrite Hv.
Qed.

Lemma C9_failure_is_reported_witness :
  let settled :=
    askQuestion_settled (Response 500 (NotJson []))
      (fst (askQuestion (setQuestion (str "flu?") initial_state))) in
  error_box (render settled) = Some (str "HTTP error! Status: 500")
  /\ result_card (render settled) = None.
Proof.
  pose proof (C9_failure_is_reported (setQuestion (str "flu?") initial_state)
                [] (Response 500 (NotJson [])) eq_refl eq_refl) as H.
  cbv zeta in H.
  destruct H as (_ & _ & _ & Hbox & _ & _ & _ & Hcard & _).
  split; [exact (Hbox 500 (NotJson []) eq_refl)|exact Hcard].
Defined.

(** ** More on the resolver *)

Module ResolverMore.

Lemma marker_length (index : nat) :
  length (marker index) = length (number_to_string (index + 1)) + 2.
Proof. unfold marker. rewrite !length_app. cbn [length]. lia. Qed.

Lemma link_length (index : nat) (x : jsstring) :
  length (link index x) = length (marker index) + 4 + length x.
Proof.
  rewrite marker_length. unfold link. rewrite !length_app. cbn [length]. lia.
Qed.

(** What a step returns when its marker is found, with the replacement
    expanded. *)
Lemma replace_marker_found (index n : nat) (c s : jsstring) :
  indexOf (marker index) s = Some n ->
  exists pre post,
    s = pre ++ marker index ++ post /\ length pre = n
    /\ (forall x y, s = x ++ marker index ++ y -> length pre <= length x)
    /\ replace s (marker index) (link index c)
       = pre ++ link index (get_substitution (marker index) pre post c) ++ post.
Proof.
  intros H.
  destruct (replace_found _ _ (link index c) _ H)
    as (pre & post & Hs & Hlen & Hmin & Hr).
  exists pre, post. repeat split; auto.
  now rewrite Hr, get_substitution_link.
Qed.

(** A step never shortens the text, and lengthens it when its marker
    occurs. *)
Lemma replace_marker_length (index : nat) (c s : jsstring) :
  length s <= length (replace s (marker index) (link index c))
  /\ (occurs (marker index) s ->
      length s < length (replace s (marker index) (link index c))).
Proof.
  destruct (indexOf (marker index) s) as [n|] eqn:E.
  - destruct (replace_marker_found index n c s E)
      as (pre & post & Hs & _ & _ & ->).
    rewrite Hs at 1 3. rewrite !length_app, link_length. lia.
  - split.
    + unfold replace. now rewrite E.
    + intros H. now apply indexOf_None in E.
Qed.

(** The link a step writes holds the marker again. *)
Lemma replace_marker_still_there (index : nat) (c s : jsstring) :
  occurs (marker index) s ->
  occurs (marker index) (replace s (marker index) (link index c)).
Proof.
  intros H. apply occursb_true in H. unfold occursb in H.
  destruct (indexOf (marker index) s) as [n|] eqn:E; [|discriminate].
  destruct (replace_marker_found index n c s E)
    as (pre & post & _ & _ & _ & ->).
  rewrite link_linked, linked_app, marker_bracket.
  exists (pre ++ [LBRACKET]). eexists.
  rewrite <- app_assoc. reflexivity.
Qed.

Lemma forEach_keeps_all (citations : list jsstring) :
  forall (index : nat) (s : jsstring) (k : nat),
    occurs (bracket k) s ->
    occurs (bracket k) (forEach_from index citations s).
Proof.
  induction citations as [|c rest IH]; intros index s k Hs;
    cbn [forEach_from]; [assumption|].
  apply IH. destruct (Nat.eq_dec (index + 1) k) as [<-|Hne].
  - rewrite <- marker_bracket in *. now apply replace_marker_still_there.
  - rewrite marker_bracket. now apply replace_keeps.
Qed.

Lemma forEach_length_le (citations : list jsstring) :
  forall (index : nat) (s : jsstring),
    length s <= length (forEach_from index citations s).
Proof.
  induction citations as [|c rest IH]; intros index s; cbn [forEach_from];
    [reflexivity|].
  etransitivity; [|apply IH]. apply replace_marker_length.
Qed.

Lemma forEach_length_lt (citations : list jsstring) :
  forall (index : nat) (s : jsstring) (k : nat),
    index < k <= index + length citations ->
    occurs (bracket k) s ->
    length s < length (forEach_from index citations s).
Proof.
  induction citations as [|c rest IH]; intros index s k Hk Hs;
    cbn [length] in Hk; [lia|]. cbn [forEach_from].
  destruct (Nat.eq_dec (index + 1) k) as [<-|Hne].
  - rewrite <- marker_bracket in Hs.
    eapply Nat.lt_le_trans; [|apply forEach_length_le].
    now apply replace_marker_length.
  - eapply Nat.le_lt_trans; [apply (replace_marker_length index c s)|].
    apply IH with (k := k); [lia|].
    rewrite marker_bracket. now apply replace_keeps.
Qed.

Lemma forEach_absent (citations : list jsstring) :
  forall (index : nat) (s : jsstring),
    (forall k, index < k <= index + length citations ->
               ~ occurs (bracket k) s) ->
    forEach_from index citations s = s.
Proof.
  induction citations as [|c rest IH]; intros index s H; cbn [forEach_from];
    [reflexivity|]. cbn [length] in H.
  rewrite replace_absent.
  - apply IH. intros k Hk. apply H. lia.
  - rewrite marker_bracket. apply H. lia.
Qed.

(** *** The first of several copies of a marker *)

Lemma forEach_behind_keeps (citations : list jsstring) :
  forall (index k : nat) (a b : jsstring),
    k <= index ->
    occurs (bracket k) b ->
    occurs (bracket k) (forEach_behind index citations a b).
Proof.
  induction citations as [|c rest IH]; intros index k a b Hk Hb;
    cbn [forEach_behind]; [assumption|].
  apply IH; [lia|].
  destruct (occursb (marker index) a); [assumption|].
  rewrite marker_bracket. apply replace_keeps; [lia|assumption].
Qed.

Lemma forEach_rest_behind (citations : list jsstring) :
  forall (skip index : nat) (a b : jsstring),
    skip < index ->
    forEach_rest skip index citations a b
    = forEach_behind index citations a b.
Proof.
  induction citations as [|c rest IH]; intros skip index a b H;
    cbn [forEach_rest forEach_behind]; [reflexivity|].
  replace (Nat.eqb index skip) with false
    by (symmetry; apply Nat.eqb_neq; lia).
  cbn [orb]. apply IH. lia.
Qed.

Lemma forEach_rest_keeps (citations : list jsstring) :
  forall (skip index : nat) (a b : jsstring),
    occurs (bracket (skip + 1)) b ->
    occurs (bracket (skip + 1)) (forEach_rest skip index citations a b).
Proof.
  induction citations as [|c rest IH]; intros skip index a b Hb;
    cbn [forEach_rest]; [assumption|].
  apply IH.
  destruct (Nat.eqb index skip) eqn:E; [assumption|].
  apply Nat.eqb_neq in E. cbn [orb].
  destruct (occursb (marker index) a); [assumption|].
  rewrite marker_bracket. apply replace_keeps; [lia|assumption].
Qed.

(** The steps in front of citation [k] leave its first marker in place,
    step [k] turns that marker into the link and leaves the text behind it
    alone, and the link stays. *)
Lemma first_bracket_linked_from (citations : list jsstring) :
  forall (index d n : nat) (c a b : jsstring),
    Forall (plain n) citations ->
    index + length citations <= n ->
    nth_error citations d = Some c ->
    ~ occurs (bracket (index + d + 1)) a ->
    forEach_from index citations (a ++ bracket (index + d + 1) ++ b)
    = forEach_from index citations a ++ linked (index + d + 1) c
      ++ forEach_rest (index + d) index citations a b.
Proof.
  induction citations as [|cj rest IH]; intros index d n c a b Hall Hn Hd Ha.
  - destruct d; discriminate.
  - inversion Hall as [|? ? [Hpj Hmj] Hrest]; subst. cbn [length] in Hn.
    cbn [forEach_from forEach_rest].
    destruct d as [|d]; cbn [nth_error] in Hd.
    + injection Hd as ->. rewrite Nat.add_0_r in *.
      rewrite Nat.eqb_refl. cbn [orb].
      rewrite (replace_absent a) by now rewrite marker_bracket.
      rewrite <- marker_bracket, replace_first_marker; [|assumption|].
      * rewrite link_linked, forEach_rest_behind by lia.
        apply linked_stays with (n := n); auto; try lia. now split.
      * intros x y H. rewrite marker_bracket in *.
        destruct (bracket_same _ _ _ _ _ H) as [->|[(z & ->)|(z & ->)]].
        -- lia.
        -- rewrite !length_app. lia.
        -- exfalso. apply Ha. now exists x, z.
    + assert (Hlen : d < length rest) by (apply nth_error_Some; congruence).
      replace (Nat.eqb index (index + S d)) with false
        by (symmetry; apply Nat.eqb_neq; lia).
      cbn [orb].
      replace (index + S d + 1) with (S index + d + 1) in * by lia.
      replace (index + S d) with (S index + d) by lia.
      assert (Hne : index + 1 <> S index + d + 1) by lia.
      assert (Hcj : ~ occurs (bracket (S index + d + 1)) cj)
        by (apply Hmj; lia).
      pose proof (replace_no_new index _ cj a Hne Hpj Hcj Ha) as Ha'.
      rewrite replace_around.
      * destruct (occursb (marker index) a) eqn:Eo.
        -- apply IH with (n := n); auto; lia.
        -- apply occursb_false in Eo.
           rewrite (replace_absent a) in * by assumption.
           apply IH with (n := n); auto; lia.
      * rewrite marker_bracket. now apply bracket_apart_bracket.
      * now apply has_pattern_link.
Qed.

End ResolverMore.

Import ResolverMore.

(** ** Text around the brackets *)

Module FrameFacts.

(** An opening bracket in a text that begins with bracket-free text lies
    behind that text. *)
Lemma before_open (pre s p w : jsstring) :
  ~ In LBRACKET pre ->
  pre ++ s = p ++ LBRACKET :: w ->
  exists p', p = pre ++ p' /\ s = p' ++ LBRACKET :: w.
Proof.
  revert p; induction pre as [|c pre IH]; intros p Hpre H.
  - now exists p.
  - destruct p as [|d p]; cbn [app] in H.
    + injection H as -> _. exfalso. apply Hpre. now left.
    + injection H as <- H.
      destruct (IH p) as (p' & -> & ->); auto.
      * intros Hin. apply Hpre. now right.
      * now exists p'.
Qed.

(** A closing bracket in a text that ends with bracket-free text lies in
    front of that text. *)
Lemma after_close (suf s y q : jsstring) :
  ~ In RBRACKET suf ->
  s ++ suf = y ++ RBRACKET :: q ->
  exists q', q = q' ++ suf /\ s = y ++ RBRACKET :: q'.
Proof.
  revert y; induction s as [|c s IH]; intros y Hsuf H; cbn [app] in H.
  - exfalso. apply Hsuf. rewrite H. apply in_elt.
  - destruct y as [|d y]; cbn [app] in H.
    + injection H as -> <-. now exists s.
    + injection H as <- H.
      destruct (IH y Hsuf H) as (q' & -> & ->). now exists q'.
Qed.

Lemma framed_occurrence (index : nat) (pre s suf x y : jsstring) :
  ~ In LBRACKET pre -> ~ In RBRACKET suf ->
  pre ++ s ++ suf = x ++ marker index ++ y ->
  exists x' y', x = pre ++ x' /\ y = y' ++ suf /\ s = x' ++ marker index ++ y'.
Proof.
  intros Hpre Hsuf H. rewrite marker_bracket, bracket_app in H.
  destruct (before_open _ _ _ _ Hpre H) as (x' & -> & H').
  change (x' ++ LBRACKET :: number_to_string (index + 1) ++ RBRACKET :: y)
    with (x' ++ (LBRACKET :: number_to_string (index + 1)) ++ RBRACKET :: y)
    in H'.
  rewrite app_assoc in H'.
  destruct (after_close _ _ _ _ Hsuf H') as (y' & -> & ->).
  exists x', y'. repeat split.
  rewrite marker_bracket, bracket_app, <- app_assoc. reflexivity.
Qed.

(** A step works between the bracket-free ends of a text; with a
    replacement free of patterns it does there what it does without the
    ends. *)
Lemma replace_framed (index : nat) (r pre s suf : jsstring) :
  ~ In LBRACKET pre -> ~ In RBRACKET suf ->
  exists t,
    replace (pre ++ s ++ suf) (marker index) r = pre ++ t ++ suf
    /\ (has_pattern r = false -> t = replace s (marker index) r).
Proof.
  intros Hpre Hsuf.
  destruct (indexOf (marker index) s) as [n|] eqn:E.
  - destruct (replace_found _ _ r _ E) as (p & q & -> & _ & Hmin & Hr).
    replace (pre ++ (p ++ marker index ++ q) ++ suf)
      with ((pre ++ p) ++ marker index ++ (q ++ suf))
      by now rewrite <- !app_assoc.
    rewrite replace_first.
    + exists (p ++ get_substitution (marker index) (pre ++ p) (q ++ suf) r ++ q).
      split; [now rewrite <- !app_assoc|].
      intros Hp. rewrite Hr. now rewrite !get_substitution_plain.
    + intros x y H.
      replace ((pre ++ p) ++ marker index ++ q ++ suf)
        with (pre ++ (p ++ marker index ++ q) ++ suf) in H
        by now rewrite <- !app_assoc.
      destruct (framed_occurrence _ _ _ _ _ _ Hpre Hsuf H)
        as (x' & y' & -> & _ & Hs).
      apply Hmin in Hs. rewrite !length_app. lia.
  - apply indexOf_None in E. exists s. split.
    + apply replace_absent. intros (x & y & H).
      destruct (framed_occurrence _ _ _ _ _ _ Hpre Hsuf H)
        as (x' & y' & _ & _ & Hs).
      apply E. now exists x', y'.
    + intros _. symmetry. now apply replace_absent.
Qed.

Lemma forEach_framed (citations : list jsstring) :
  forall (index : nat) (pre s suf : jsstring),
    ~ In LBRACKET pre -> ~ In RBRACKET suf ->
    exists t,
      forEach_from index citations (pre ++ s ++ suf) = pre ++ t ++ suf
      /\ (pattern_free citations = true ->
          t = forEach_from index citations s).
Proof.
  induction citations as [|c rest IH]; intros index pre s suf Hpre Hsuf;
    cbn [forEach_from].
  - now exists s.
  - destruct (replace_framed index (link index c) pre s suf Hpre Hsuf)
      as (t1 & -> & H1).
    destruct (IH (S index) pre t1 suf Hpre Hsuf) as (t2 & -> & H2).
    exists t2. split; [reflexivity|].
    intros Hfree. cbn [pattern_free forallb] in Hfree.
    apply andb_true_iff in Hfree as [Hc Hrest].
    apply negb_true_iff in Hc.
    rewrite <- H1 by now apply has_pattern_link.
    now apply H2.
Qed.

End FrameFacts.

Import FrameFacts.

(** ** The resolver: further properties *)

(** X1.  The steps run in the order of the citations: the result for a
    list with one more citation at its end is the result for the list,
    with one more step for that citation. *)
Theorem X1_one_more_citation_one_more_step (answer : jsstring)
    (citations : list jsstring) (citation : jsstring) :
  formatAnswerWithCitations answer (citations ++ [citation])
  = replace (formatAnswerWithCitations answer citations)
      (marker (length citations)) (link (length citations) citation).
Proof. apply forEach_from_snoc. Qed.

(** X2.  The output is the answer itself exactly when none of the markers
    ["[1]"] .. ["[n]"], [n] the number of citations, occurs in the
    answer. *)
Theorem X2_unchanged_iff_no_marker (answer : jsstring)
    (citations : list jsstring) :
  formatAnswerWithCitations answer citations = answer
  <-> (forall k, 1 <= k <= length citations -> ~ occurs (bracket k) answer).
Proof.
  unfold formatAnswerWithCitations. split.
  - intros Heq k Hk Hocc.
    pose proof (forEach_length_lt citations 0 answer k ltac:(lia) Hocc) as Hlt.
    rewrite Heq in Hlt. lia.
  - intros H. apply forEach_absent. intros k Hk. apply H. lia.
Qed.

(** X3.  The output is never shorter than the answer, and it is longer
    when one of the markers ["[1]"] .. ["[n]"] occurs in the answer. *)
Theorem X3_output_not_shorter (answer : jsstring)
    (citations : list jsstring) :
  length answer <= length (formatAnswerWithCitations answer citations)
  /\ (forall k,
        1 <= k <= length citations ->
        occurs (bracket k) answer ->
        length answer < length (formatAnswerWithCitations answer citations)).
Proof.
  split.
  - apply forEach_length_le.
  - intros k Hk Hocc. apply forEach_length_lt with (k := k); [lia|assumption].
Qed.

Lemma X3_output_not_shorter_witness :
  length (str "See [1].")
  < length (formatAnswerWithCitations (str "See [1].") [str "https://a.com"]).
Proof.
  apply (proj2 (X3_output_not_shorter (str "See [1].") [str "https://a.com"]) 1).
  - cbn [length]. lia.
  - exists (str "See "), (str "."). reflexivity.
Defined.

(** X4.  Every marker text of the answer is in the output too, whatever
    the citations are: a marker without citation stays as it is, and a
    resolved one stands inside the double brackets of its link. *)
Theorem X4_marker_text_stays (answer : jsstring)
    (citations : list jsstring) (k : nat) :
  occurs (bracket k) answer ->
  occurs (bracket k) (formatAnswerWithCitations answer citations).
Proof. intros H. now apply forEach_keeps_all. Qed.

Lemma X4_marker_text_stays_witness :
  occurs (bracket 1)
    (formatAnswerWithCitations (str "See [1].") [str "https://a.com/$'"]).
Proof.
  apply (X4_marker_text_stays (str "See [1].") [str "https://a.com/$'"] 1).
  exists (str "See "), (str "."). reflexivity.
Defined.

(** X5.  A second run with the same citations changes the output of the
    first exactly when one of the markers ["[1]"] .. ["[n]"] occurs in the
    answer: the resolver is idempotent on the answers without such a marker
    and on no others. *)
Theorem X5_idempotent_iff_no_marker (answer : jsstring)
    (citations : list jsstring) :
  formatAnswerWithCitations
    (formatAnswerWithCitations answer citations) citations
  = formatAnswerWithCitations answer citations
  <-> (forall k, 1 <= k <= length citations -> ~ occurs (bracket k) answer).
Proof.
  unfold formatAnswerWithCitations. split.
  - intros Heq k Hk Hocc.
    apply (forEach_keeps_all citations 0) in Hocc.
    pose proof (forEach_length_lt citations 0 _ k ltac:(lia) Hocc) as Hlt.
    rewrite Heq in Hlt. lia.
  - intros H.
    rewrite (forEach_absent citations 0 answer); [|intros k Hk; apply H; lia].
    apply forEach_absent. intros k Hk. apply H. lia.
Qed.

(** X6.  Only the first of several copies of a marker is linked.  When no
    citation holds a replacement pattern or marker text, and ["[k]"], [k] in
    [1..n], is first found at position [p] of the answer, the output is the
    resolved text in front of position [p], the link
    ["[[k]](citations[k-1])"], and the text behind the marker as the steps
    for the other citations leave it: the step for citation [k] does not
    work on that text, and a copy of ["[k]"] in it is still there. *)
Theorem X6_first_copy_linked (answer : jsstring)
    (citations : list jsstring) (k p : nat) (url : jsstring) :
  1 <= k ->
  nth_error citations (k - 1) = Some url ->
  indexOf (bracket k) answer = Some p ->
  plain_citations citations = true ->
  let front := firstn p answer in
  let behind := skipn (p + length (bracket k)) answer in
  formatAnswerWithCitations answer citations
  = formatAnswerWithCitations front citations
    ++ linked k url
    ++ forEach_rest (k - 1) 0 citations front behind
  /\ (occurs (bracket k) behind ->
      occurs (bracket k) (forEach_rest (k - 1) 0 citations front behind)).
Proof.
  intros Hk Hurl Hp Hplain front behind.
  destruct (indexOf_Some _ _ _ Hp) as (pre & post & Hs & Hlen & Hmin).
  assert (Hfirst : ~ occurs (bracket k) pre).
  { intros (x & z & Hx).
    assert (Hle : p <= length x).
    { apply (Hmin x (z ++ bracket k ++ post)).
      now rewrite Hs, Hx, <- !app_assoc. }
    rewrite <- Hlen, Hx, !length_app in Hle.
    pose proof (bracket_not_nil k) as Hnil.
    destruct (bracket k); [contradiction|cbn [length] in Hle; lia]. }
  assert (Hpre : front = pre).
  { subst front. rewrite Hs, <- Hlen.
    now rewrite firstn_app, Nat.sub_diag, firstn_all, firstn_O, app_nil_r. }
  assert (Hpost : behind = post).
  { subst behind. rewrite Hs, app_assoc, <- Hlen, <- length_app.
    now rewrite skipn_app, Nat.sub_diag, skipn_all, skipn_O. }
  rewrite Hpre, Hpost, Hs. split.
  - unfold formatAnswerWithCitations.
    pose proof (first_bracket_linked_from citations 0 (k - 1)
                  (length citations) url pre post
                  (plain_citations_Forall _ Hplain) ltac:(lia) Hurl) as H.
    replace (0 + (k - 1) + 1) with k in H by lia.
    apply H. exact Hfirst.
  - intros Hb.
    pose proof (forEach_rest_keeps citations (k - 1) 0 pre post) as H.
    replace (k - 1 + 1) with k in H by lia. now apply H.
Qed.

Lemma X6_first_copy_linked_witness :
  formatAnswerWithCitations (str "[2], [1] and again [1] and [2]")
    [str "https://a.com"; str "https://b.com"]
  = formatAnswerWithCitations (str "[2], ")
      [str "https://a.com"; str "https://b.com"]
    ++ linked 1 (str "https://a.com")
    ++ str " and again [1] and [2]".
Proof.
  exact (proj1 (X6_first_copy_linked (str "[2], [1] and again [1] and [2]")
                  [str "https://a.com"; str "https://b.com"] 1 5
                  (str "https://a.com")
                  ltac:(lia) eq_refl eq_refl eq_refl)).
Defined.

(** X7.  The resolver leaves the ends of the answer alone: text in front
    of the first opening bracket and text behind the last closing bracket
    come back as they are.  When no citation holds a replacement pattern,
    the part in between is resolved as if it stood alone. *)
Theorem X7_ends_untouched (pre s suf : jsstring)
    (citations : list jsstring) :
  ~ In LBRACKET pre ->
  ~ In RBRACKET suf ->
  (exists t,
     formatAnswerWithCitations (pre ++ s ++ suf) citations = pre ++ t ++ suf)
  /\ (pattern_free citations = true ->
      formatAnswerWithCitations (pre ++ s ++ suf) citations
      = pre ++ formatAnswerWithCitations s citations ++ suf).
Proof.
  intros Hpre Hsuf. unfold formatAnswerWithCitations.
  destruct (forEach_framed citations 0 pre s suf Hpre Hsuf) as (t & Ht & Hfree).
  split.
  - now exists t.
  - intros H. now rewrite Ht, (Hfree H).
Qed.

Lemma X7_ends_untouched_witness :
  formatAnswerWithCitations (str "Rest, see " ++ str "[1]" ++ str ". Done.")
    [str "https://a.com"]
  = str "Rest, see "
    ++ formatAnswerWithCitations (str "[1]") [str "https://a.com"]
    ++ str ". Done.".
Proof.
  apply (X7_ends_untouched (str "Rest, see ") (str "[1]") (str ". Done.")
           [str "https://a.com"]).
  - cbn. intuition discriminate.
  - cbn. intuition discriminate.
  - reflexivity.
Defined.

(** ** More on the submission flow *)

Module PageMore.

(** *** The guard of [askQuestion] *)

Lemma trim_start_cases (s : jsstring) :
  (trim_start s = [] /\ blank s = true)
  \/ (exists c t,
        trim_start s = c :: t /\ is_white_space c = false /\ blank s = false).
Proof.
  induction s as [|c s IH]; [now left|].
  cbn [trim_start blank forallb].
  destruct (is_white_space c) eqn:Ec; [exact IH|].
  right. now exists c, s.
Qed.

Lemma blank_rev (s : jsstring) : blank (rev s) = blank s.
Proof.
  unfold blank. induction s as [|c s IH]; [reflexivity|].
  cbn [rev forallb]. rewrite forallb_app, IH. cbn [forallb].
  rewrite andb_true_r. apply andb_comm.
Qed.

(** [question.trim()] is the empty string exactly for a question of white
    space only. *)
Lemma truthy_trim (s : jsstring) : truthy (trim s) = negb (blank s).
Proof.
  unfold trim.
  destruct (trim_start_cases s) as [(-> & ->)|(c & t & -> & Hc & ->)];
    [reflexivity|].
  destruct (trim_start_cases (rev (c :: t)))
    as [(_ & Hb)|(d & u & -> & _ & _)].
  - rewrite blank_rev in Hb. cbn [blank forallb] in Hb.
    rewrite Hc in Hb. discriminate.
  - cbn [rev]. now destruct (rev u).
Qed.

Lemma askQuestion_not_blank (s : State) :
  blank (question s) = false ->
  askQuestion s
  = (setError None (setResult VNull (setLoading true s)),
     [POST_ask (question s)]).
Proof.
  intros H. apply askQuestion_sends. now rewrite truthy_trim, H.
Qed.

(** *** Events, one by one *)

(** What a user event other than typing does: nothing, or the submission
    of a question that is not blank; a click submits only when nothing is
    loading, a key only when it is Enter without Shift. *)
Lemma handle_submits (e : Event) (s : State) :
  (forall v, e <> Change v) -> (forall n o, e <> Settle n o) ->
  handle e s = (s, [])
  \/ (blank (question s) = false
      /\ (e = Click -> loading s = false)
      /\ (e <> Click -> plain_enter e = true)
      /\ handle e s
         = (setError None (setResult VNull (setLoading true s)),
            [POST_ask (question s)])).
Proof.
  intros Hc Hs. destruct e as [v| |key shiftKey|n o].
  - now destruct (Hc v).
  - cbn [handle]. unfold onClick, button_disabled, askQuestion.
    rewrite truthy_trim, negb_involutive.
    destruct (loading s); [now left|].
    destruct (blank (question s)); [now left|].
    right. repeat split; auto; congruence.
  - cbn [handle plain_enter]. unfold handleKeyPress, askQuestion.
    rewrite truthy_trim, negb_involutive.
    destruct (string_eqb key (str "Enter") && negb shiftKey); [|now left].
    destruct (blank (question s)); [now left|].
    right. repeat split; auto; discriminate.
  - now destruct (Hs n o).
Qed.

Lemma step_user (w w' : Session) (e : Event) :
  (forall n o, e <> Settle n o) ->
  step w e = Some w' ->
  w' = {| view := fst (handle e (view w));
          outstanding := outstanding w ++ snd (handle e (view w));
          sent := sent w ++ snd (handle e (view w)) |}.
Proof.
  intros He H. unfold step in H.
  destruct e as [v| |key shiftKey|n o]; try (now destruct (He n o));
    destruct (handle _ (view w)) as [s' requests]; now injection H as <-.
Qed.

Lemma step_settle (w w' : Session) (n : nat) (o : Outcome) :
  step w (Settle n o) = Some w' ->
  n < length (outstanding w)
  /\ w' = {| view := askQuestion_settled o (view w);
             outstanding := remove_nth n (outstanding w);
             sent := sent w |}.
Proof.
  unfold step. destruct (n <? length (outstanding w)) eqn:E; [|discriminate].
  apply Nat.ltb_lt in E. cbn [handle]. intros H. injection H as <-.
  now rewrite app_nil_r.
Qed.

(** *** Invariants of runs *)

Lemma run_invariant (Q : Event -> Prop) (P : Session -> Prop) :
  (forall w e w', Q e -> P w -> step w e = Some w' -> P w') ->
  forall events w0 w,
    Forall Q events -> P w0 -> run w0 events = Some w -> P w.
Proof.
  intros Hstep. induction events as [|e rest IH]; intros w0 w HQ H0 Hrun;
    cbn [run] in Hrun.
  - now injection Hrun as <-.
  - inversion HQ as [|? ? He Hrest]; subst.
    destruct (step w0 e) as [w1|] eqn:E; [|discriminate].
    apply (IH w1); auto. now apply (Hstep w0 e).
Qed.

Lemma Forall_any (events : list Event) : Forall (fun _ => True) events.
Proof. induction events; constructor; auto. Qed.

Lemma loading_clean_step (w w' : Session) (e : Event) :
  loading_clean w -> step w e = Some w' -> loading_clean w'.
Proof.
  intros Hw H. destruct e as [v| |key shiftKey|n o].
  - apply step_user in H; [|intros; discriminate]. subst w'. cbn.
    rewrite app_nil_r. exact Hw.
  - apply step_user in H; [|intros; discriminate]. subst w'.
    destruct (handle_submits Click (view w)) as [->|(_ & _ & _ & ->)];
      try discriminate.
    + cbn. rewrite app_nil_r. exact Hw.
    + intros _. cbn. repeat split; auto. now destruct (outstanding w).
  - apply step_user in H; [|intros; discriminate]. subst w'.
    destruct (handle_submits (KeyDown key shiftKey) (view w))
      as [->|(_ & _ & _ & ->)]; try discriminate.
    + cbn. rewrite app_nil_r. exact Hw.
    + intros _. cbn. repeat split; auto. now destruct (outstanding w).
  - apply step_settle in H as [_ ->]. intros Hl. cbn in Hl. discriminate.
Qed.

Lemma no_blank_sent_step (w w' : Session) (e : Event) :
  no_blank_sent w -> step w e = Some w' -> no_blank_sent w'.
Proof.
  unfold no_blank_sent. intros Hw H. destruct e as [v| |key shiftKey|n o].
  - apply step_user in H; [|intros; discriminate]. subst w'. cbn.
    now rewrite app_nil_r.
  - apply step_user in H; [|intros; discriminate]. subst w'.
    destruct (handle_submits Click (view w)) as [->|(Hb & _ & _ & ->)];
      try discriminate; cbn.
    + now rewrite app_nil_r.
    + apply Forall_app. split; [exact Hw|]. now constructor.
  - apply step_user in H; [|intros; discriminate]. subst w'.
    destruct (handle_submits (KeyDown key shiftKey) (view w))
      as [->|(Hb & _ & _ & ->)]; try discriminate; cbn.
    + now rewrite app_nil_r.
    + apply Forall_app. split; [exact Hw|]. now constructor.
  - apply step_settle in H as [_ ->]. exact Hw.
Qed.

Lemma one_at_a_time_step (w w' : Session) (e : Event) :
  plain_enter e = false ->
  one_at_a_time w -> step w e = Some w' -> one_at_a_time w'.
Proof.
  intros He Hw H. destruct e as [v| |key shiftKey|n o].
  - apply step_user in H; [|intros; discriminate]. subst w'.
    unfold one_at_a_time. cbn. rewrite app_nil_r. exact Hw.
  - apply step_user in H; [|intros; discriminate]. subst w'.
    destruct (handle_submits Click (view w)) as [->|(_ & Hl & _ & ->)];
      try discriminate.
    + unfold one_at_a_time. cbn. rewrite app_nil_r. exact Hw.
    + specialize (Hl eq_refl).
      destruct Hw as [(Hw & _)|(_ & Ho & _)]; [congruence|].
      left. cbn. rewrite Ho. auto.
  - apply step_user in H; [|intros; discriminate]. subst w'.
    destruct (handle_submits (KeyDown key shiftKey) (view w))
      as [->|(_ & _ & Hp & _)]; try discriminate.
    + unfold one_at_a_time. cbn. rewrite app_nil_r. exact Hw.
    + rewrite Hp in He by discriminate. discriminate.
  - apply step_settle in H as [Hn ->].
    destruct Hw as [(_ & Ho & Hr & Herr)|(_ & Ho & _)].
    + right. cbn [view outstanding].
      destruct (outstanding w) as [|r [|r' l]]; try discriminate.
      cbn [length] in Hn. assert (n = 0) as -> by lia.
      split; [reflexivity|split; [reflexivity|]].
      unfold askQuestion_settled.
      destruct o as [m|status [data|m]]; cbn; try (destruct (ok status));
        cbn; auto.
    + rewrite Ho in Hn. cbn in Hn. lia.
Qed.

End PageMore.

Import PageMore.

(** ** The submission flow: further properties *)

(** X8.  [askQuestion] sends a request exactly when the question holds a
    code unit that is not white space; the request then carries the
    question as it was typed, not trimmed, and the page starts loading with
    result and error cleared. *)
Theorem X8_sends_unless_blank (s : State) :
  askQuestion s
  = if blank (question s) then (s, [])
    else (setError None (setResult VNull (setLoading true s)),
          [POST_ask (question s)]).
Proof.
  unfold askQuestion. rewrite truthy_trim, negb_involutive. reflexivity.
Qed.

(** X9.  In every reachable session, while the loading skeleton is shown
    a request is outstanding and the page shows neither an error nor a
    result card. *)
Theorem X9_loading_shows_nothing_else (w : Session) :
  reachable w ->
  skeleton (render (view w)) = true ->
  outstanding w <> []
  /\ error_box (render (view w)) = None
  /\ result_card (render (view w)) = None.
Proof.
  intros (events & Hrun) Hl. cbn [render skeleton] in Hl.
  assert (H : loading_clean w).
  { apply (run_invariant (fun _ => True) loading_clean)
      with (events := events) (w0 := start); auto.
    - intros w1 e w2 _. apply loading_clean_step.
    - apply Forall_any.
    - intros Hs. discriminate. }
  destruct (H Hl) as (Hr & He & Ho).
  cbn [render error_box result_card]. rewrite He, Hl. auto.
Qed.

Lemma X9_loading_shows_nothing_else_witness :
  exists w,
    run start [Change (str "flu?"); Click] = Some w
    /\ outstanding w <> []
    /\ error_box (render (view w)) = None
    /\ result_card (render (view w)) = None.
Proof.
  eexists. split; [reflexivity|].
  apply X9_loading_shows_nothing_else.
  - exists [Change (str "flu?"); Click]. reflexivity.
  - reflexivity.
Defined.

(** X10.  When no key event is Enter without Shift (the page is driven by
    typing, clicks and responses), at most one request is outstanding, one
    is outstanding exactly while the page is loading, and the page never
    shows an error and a result card together. *)
Theorem X10_button_one_request_at_a_time (events : list Event)
    (w : Session) :
  forallb (fun e => negb (plain_enter e)) events = true ->
  run start events = Some w ->
  length (outstanding w) = (if loading (view w) then 1 else 0)
  /\ (error_box (render (view w)) = None
      \/ result_card (render (view w)) = None).
Proof.
  intros Hev Hrun.
  assert (H : one_at_a_time w).
  { apply (run_invariant (fun e => plain_enter e = false) one_at_a_time)
      with (events := events) (w0 := start); auto.
    - intros w1 e w2. apply one_at_a_time_step.
    - apply Forall_forall. intros e He.
      rewrite forallb_forall in Hev. now apply negb_true_iff, Hev.
    - right. cbn. auto. }
  cbn [render error_box result_card].
  destruct H as [(Hl & Ho & Hr & He)|(Hl & Ho & Hre)]; rewrite Hl, Ho.
  - split; [reflexivity|]. now right.
  - split; [reflexivity|]. destruct Hre as [Hr|He].
    + right. now rewrite Hr.
    + left. now rewrite He.
Qed.

Lemma X10_button_one_request_at_a_time_witness :
  exists w,
    run start
      [Change (str "flu?"); Click; Click; KeyDown (str "Enter") true;
       Settle 0 (Response 500 (NotJson [])); Click]
    = Some w
    /\ length (outstanding w) = (if loading (view w) then 1 else 0)
    /\ (error_box (render (view w)) = None
        \/ result_card (render (view w)) = None).
Proof.
  eexists. split; [reflexivity|].
  apply (X10_button_one_request_at_a_time
           [Change (str "flu?"); Click; Click; KeyDown (str "Enter") true;
            Settle 0 (Response 500 (NotJson [])); Click]);
    reflexivity.
Defined.

(** X11.  No reachable session has sent a blank question: every request
    ever sent, by click or by key, carries a question with a code unit that
    is not white space. *)
Theorem X11_no_blank_question_sent (w : Session) :
  reachable w ->
  Forall (fun r => blank (request_question r) = false) (sent w).
Proof.
  intros (events & Hrun).
  apply (run_invariant (fun _ => True) no_blank_sent)
    with (events := events) (w0 := start); auto.
  - intros w1 e w2 _. apply no_blank_sent_step.
  - apply Forall_any.
  - constructor.
Qed.

Lemma X11_no_blank_question_sent_witness :
  exists w,
    run start
      [Change (str "  "); KeyDown (str "Enter") false; Change (str " flu? ");
       KeyDown (str "Enter") false; KeyDown (str "Enter") false]
    = Some w
    /\ sent w = [POST_ask (str " flu? "); POST_ask (str " flu? ")]
    /\ Forall (fun r => blank (request_question r) = false) (sent w).
Proof.
  eexists. split; [reflexivity|]. split; [reflexivity|].
  apply X11_no_blank_question_sent.
  exists [Change (str "  "); KeyDown (str "Enter") false; Change (str " flu? ");
          KeyDown (str "Enter") false; KeyDown (str "Enter") false].
  reflexivity.
Defined.

(** X12.  An event that starts a request starts exactly one, for the
    question in the input, which is not blank; the page then shows the
    skeleton, neither error nor result card, and a disabled button. *)
Theorem X12_submission_shows_loading (e : Event) (s : State) :
  snd (handle e s) <> [] ->
  snd (handle e s) = [POST_ask (question s)]
  /\ blank (question s) = false
  /\ render (fst (handle e s))
     = {| input_value := question s;
          disabled := true;
          error_box := None;
          skeleton := true;
          result_card := None;
          result_text := None |}.
Proof.
  intros H. destruct e as [v| |key shiftKey|n o]; try (now destruct H).
  - destruct (handle_submits Click s) as [Hh|(Hb & _ & _ & Hh)];
      try discriminate; rewrite Hh in *; [now destruct H|].
    repeat split; auto.
  - destruct (handle_submits (KeyDown key shiftKey) s)
      as [Hh|(Hb & _ & _ & Hh)]; try discriminate; rewrite Hh in *;
      [now destruct H|].
    repeat split; auto.
Qed.

Lemma X12_submission_shows_loading_witness :
  snd (handle (KeyDown (str "Enter") false)
         (setQuestion (str "flu?") initial_state))
  = [POST_ask (str "flu?")].
Proof.
  apply (X12_submission_shows_loading (KeyDown (str "Enter") false)
           (setQuestion (str "flu?") initial_state)).
  cbn. discriminate.
Defined.

(** X13.  A question that is not blank is submitted, the user may go on
    typing, and a response with a status in 200-299 arrives before any
    other, its body an object with a string under [answer] and an array of
    strings under [citations], whatever else it holds.  Then the page shows
    the result card with the answer resolved against these citations and
    the list of all these citations, no error and no skeleton. *)
Theorem X13_success_shows_resolved_answer (s : State)
    (typed : list jsstring) (status : nat) (body : Value)
    (a : jsstring) (cs : list jsstring) :
  blank (question s) = false ->
  ok status = true ->
  get (str "answer") body = Some (VString a) ->
  get (str "citations") body = Some (VArray (map VString cs)) ->
  let settled :=
    askQuestion_settled (Response status (Json body))
      (type_all typed (fst (askQuestion s))) in
  result_card (render settled)
  = Some (Shown (VString (formatAnswerWithCitations a cs)) (map VString cs))
  /\ error_box (render settled) = None
  /\ skeleton (render settled) = false.
Proof.
  intros Hq Hok Ha Hc settled. subst settled.
  rewrite askQuestion_not_blank by assumption. cbn [fst].
  set (s1 := setError None (setResult VNull (setLoading true s))).
  destruct (type_all_keeps typed s1) as (_ & _ & He).
  unfold askQuestion_settled. rewrite Hok.
  cbn [negb setLoading setResult render result_card error_box skeleton
       loading result error].
  rewrite He. cbn [s1 setError error].
  assert (Ht : truthy_value body = true)
    by (destruct body; cbn in Ha; try discriminate; reflexivity).
  rewrite Ht. cbn [negb andb].
  now rewrite (card_strings body a cs Ha Hc).
Qed.

Lemma X13_success_shows_resolved_answer_witness :
  let body :=
    VObject [(str "answer", VString (str "See [1]."));
             (str "citations", VArray [VString (str "https://a.com")])] in
  let settled :=
    askQuestion_settled (Response 200 (Json body))
      (type_all [] (fst (askQuestion (setQuestion (str "flu?") initial_state))))
  in
  result_card (render settled)
  = Some (Shown (VString (str "See [[1]](https://a.com)."))
            [VString (str "https://a.com")]).
Proof.
  exact (proj1 (X13_success_shows_resolved_answer
                  (setQuestion (str "flu?") initial_state) [] 200
                  (VObject
                     [(str "answer", VString (str "See [1]."));
                      (str "citations", VArray [VString (str "https://a.com")])])
                  (str "See [1].") [str "https://a.com"]
                  eq_refl eq_refl eq_refl eq_refl)).
Defined.

(** X14.  A question that is not blank is submitted, the user may go on
    typing, and the request ends in whatever way before any other does.
    Then loading is cleared, and the state holds either no error and, as the
    result, the parsed body of a response with a status in 200-299, or an
    error and the result [null]; so the page never shows an error box
    together with a result card. *)
Theorem X14_result_or_error (s : State) (typed : list jsstring)
    (o : Outcome) :
  blank (question s) = false ->
  let settled :=
    askQuestion_settled o (type_all typed (fst (askQuestion s))) in
  loading settled = false
  /\ ((error settled = None
       /\ exists status body,
            o = Response status (Json body) /\ ok status = true
            /\ result settled = body)
      \/ (result settled = VNull
          /\ exists message, error settled = Some message))
  /\ (error_box (render settled) = None
      \/ result_card (render settled) = None).
Proof.
  intros Hq settled. subst settled.
  rewrite askQuestion_not_blank by assumption. cbn [fst].
  set (s1 := setError None (setResult VNull (setLoading true s))).
  destruct (type_all_keeps typed s1) as (_ & Hr & He).
  set (s2 := type_all typed s1) in *. cbn in Hr, He.
  split; [reflexivity|].
  assert (H : (error (askQuestion_settled o s2) = None
               /\ exists status body,
                    o = Response status (Json body) /\ ok status = true
                    /\ result (askQuestion_settled o s2) = body)
              \/ (result (askQuestion_settled o s2) = VNull
                  /\ exists message,
                       error (askQuestion_settled o s2) = Some message)).
  { destruct o as [m|status [data|m]]; unfold askQuestion_settled;
      try destruct (ok status) eqn:Hok; cbn; rewrite ?Hr, ?He; eauto 8. }
  split; [exact H|].
  cbn [render error_box result_card].
  destruct H as [(-> & _)|(-> & _)]; [now left|right].
  cbn [truthy_value]. now rewrite andb_false_r.
Qed.

Lemma X14_result_or_error_witness :
  let settled :=
    askQuestion_settled (Response 200 (NotJson (str "Unexpected token")))
      (type_all [str "flu? "]
         (fst (askQuestion (setQuestion (str "flu?") initial_state)))) in
  loading settled = false.
Proof.
  exact (proj1 (X14_result_or_error
                  (setQuestion (str "flu?") initial_state) [str "flu? "]
                  (Response 200 (NotJson (str "Unexpected token"))) eq_refl)).
Defined.

(** X15.  The body of a response with a status in 200-299 is stored as it
    was parsed, without validation.  After a lone submission of a question
    that is not blank: a falsy body, such as [null], leaves the page with
    neither result card nor error box; a truthy body that holds no array
    under [citations] makes the render of the card throw. *)
Theorem X15_body_not_validated (s : State) (typed : list jsstring)
    (status : nat) (body : Value) :
  blank (question s) = false ->
  ok status = true ->
  let settled :=
    askQuestion_settled (Response status (Json body))
      (type_all typed (fst (askQuestion s))) in
  result settled = body
  /\ error_box (render settled) = None
  /\ (truthy_value body = false -> result_card (render settled) = None)
  /\ (truthy_value body = true ->
      (forall cites, get (str "citations") body <> Some (VArray cites)) ->
      result_card (render settled) = Some RenderError).
Proof.
  intros Hq Hok settled. subst settled.
  rewrite askQuestion_not_blank by assumption. cbn [fst].
  set (s1 := setError None (setResult VNull (setLoading true s))).
  destruct (type_all_keeps typed s1) as (_ & _ & He).
  unfold askQuestion_settled. rewrite Hok.
  cbn [negb setLoading setResult render result_card error_box
       loading result error].
  rewrite He. cbn [s1 setError error].
  split; [reflexivity|]. split; [reflexivity|]. split.
  - intros ->. reflexivity.
  - intros -> Hc. cbn [negb andb]. f_equal. unfold card.
    destruct (get (str "answer") body) as [a|]; [|reflexivity].
    destruct (get (str "citations") body) as [c|] eqn:Ec; [|reflexivity].
    destruct c; try reflexivity.
    now destruct (Hc elements).
Qed.

Lemma X15_body_not_validated_witness :
  let after body :=
    render
      (askQuestion_settled (Response 200 (Json body))
         (type_all []
            (fst (askQuestion (setQuestion (str "flu?") initial_state))))) in
  result_card (after VNull) = None
  /\ result_card (after (VObject [(str "answer", VString (str "See [1]."))]))
     = Some RenderError.
Proof.
  intros after. split.
  - apply (X15_body_not_validated (setQuestion (str "flu?") initial_state)
             [] 200 VNull eq_refl eq_refl).
    reflexivity.
  - apply (X15_body_not_validated (setQuestion (str "flu?") initial_state)
             [] 200 (VObject [(str "answer", VString (str "See [1]."))])
             eq_refl eq_refl).
    + reflexivity.
    + intros cites H. cbn in H. discriminate.
Defined.
